(** * VLVector: a vector with an inline buffer and a heap fallback

    Shallow embedding of [VLVector.hpp] (class [VLVector<T, StaticCapacity>])
    and the properties of its public operations.

    Conventions of the embedding:
    - [size_t] values are integers in [0, 2^64) and every [size_t] operation
      of the source is followed by its wrap-around ([to_size_t]);
    - an iterator is represented by its offset from [data()];
    - a memory block is the list of its cells; a read or write outside the
      block, or through a pointer whose block was released, is undefined
      behaviour, which the embedding reports as [Undefined];
    - the only exception of the source, [std::out_of_range], is [Throw]. *)

From stdpp Require Import base option list numbers.

Local Open Scope Z_scope.

(** ** The template *)

(** [template<class T, size_t StaticCapacity>], together with what the code
    uses of [T]: its default value (the inline array and [new T[n]()]
    default-construct their cells) and [sizeof(T)]. *)
Class Template := {
  T : Type;
  T_default : T;
  sizeof_T : Z;
  StaticCapacity : Z;
}.

(** ** Macros and [size_t] *)

Definition size_t_modulus : Z := 2 ^ 64.

Definition to_size_t (z : Z) : Z := z mod size_t_modulus.

Definition STARTING_SIZE : Z := 0.
Definition FIRST_IDX : Z := 0.
Definition INCREASE_INC : Z := 1.
Definition NEXT_ELEM : Z := 1.

(** [#define INCREASE_FACTOR 3 / 2] is a textual macro:
    [x * INCREASE_FACTOR] is [(x * 3) / 2] in [size_t] arithmetic. *)
Definition times_INCREASE_FACTOR (x : Z) : Z := to_size_t (x * 3) / 2.

(** ** The object *)

Section Model.
Context {tp : Template}.

(** Where [_curData] points. The heap block is owned by the vector alone, so
    its cells are kept with the pointer. *)
Inductive pointer : Type :=
| to_statData
| to_heap (cells : list T)
| dangling.

Record VLVector : Type := mkVLVector {
  _statData : list T;
  _dynamic : bool;
  _size : Z;
  _capacity : Z;
  _curData : pointer;
}.

Definition set_statData (v : VLVector) (c : list T) : VLVector :=
  mkVLVector c (_dynamic v) (_size v) (_capacity v) (_curData v).

Definition set_dynamic (v : VLVector) (b : bool) : VLVector :=
  mkVLVector (_statData v) b (_size v) (_capacity v) (_curData v).

Definition set_size (v : VLVector) (n : Z) : VLVector :=
  mkVLVector (_statData v) (_dynamic v) n (_capacity v) (_curData v).

Definition set_capacity (v : VLVector) (n : Z) : VLVector :=
  mkVLVector (_statData v) (_dynamic v) (_size v) n (_curData v).

Definition set_curData (v : VLVector) (p : pointer) : VLVector :=
  mkVLVector (_statData v) (_dynamic v) (_size v) (_capacity v) p.

(** ** Outcomes *)

Inductive exception : Type := out_of_range.

(** A call returns a value and leaves the object in a state, or throws and
    leaves the object in a state, or has undefined behaviour. *)
Inductive result (A : Type) : Type :=
| Ret (a : A) (v : VLVector)
| Throw (e : exception) (v : VLVector)
| Undefined.

Global Arguments Ret {A} a v.
Global Arguments Throw {A} e v.
Global Arguments Undefined {A}.

Definition bind {A B : Type} (m : result A) (k : A → VLVector → result B)
  : result B :=
  match m with
  | Ret a v => k a v
  | Throw e v => Throw e v
  | Undefined => Undefined
  end.

Definition lift {A : Type} (o : option A) (v : VLVector) : result A :=
  match o with
  | Some a => Ret a v
  | None => Undefined
  end.

(** ** Memory blocks *)

Definition rd (c : list T) (i : Z) : option T :=
  if decide (0 ≤ i) then c !! Z.to_nat i else None.

Definition wr (c : list T) (i : Z) (x : T) : option (list T) :=
  if decide (0 ≤ i < Z.of_nat (length c))
  then Some (<[Z.to_nat i := x]> c) else None.

(** [new T[n]()] *)
Definition new_array (n : Z) : list T := replicate (Z.to_nat n) T_default.

(** The block [data()] points into. *)
Definition block (v : VLVector) : option (list T) :=
  match _curData v with
  | to_statData => Some (_statData v)
  | to_heap c => Some c
  | dangling => None
  end.

(** [data()[i]] as an rvalue. *)
Definition peek (v : VLVector) (i : Z) : option T :=
  c ← block v; rd c i.

(** [data()[i] = x] *)
Definition poke (v : VLVector) (i : Z) (x : T) : option VLVector :=
  match _curData v with
  | to_statData => set_statData v <$> wr (_statData v) i x
  | to_heap c => (λ c', set_curData v (to_heap c')) <$> wr c i x
  | dangling => None
  end.

Definition load (v : VLVector) (i : Z) : result T := lift (peek v i) v.

Definition store (v : VLVector) (i : Z) (x : T) : result unit :=
  match poke v i x with
  | Some v' => Ret tt v'
  | None => Undefined
  end.

(** [delete[] _curData] *)
Definition delete_curData (v : VLVector) : result unit :=
  match _curData v with
  | to_heap _ => Ret tt (set_curData v dangling)
  | to_statData | dangling => Undefined
  end.

End Model.

Notation "'do' ( x , v ) <- m ; k" := (bind m (λ x v, k))
  (at level 10, x name, v name, m at level 100, k at level 200,
   format "'[v' 'do'  ( x ,  v )  <-  m ; '/' k ']'").

Section Operations.
Context {tp : Template}.

(** ** Storage engine *)

(** [for (size_t i = FIRST_IDX; i < _size; ++i) temp[i] = data()[i];] *)
Fixpoint copy_to_temp (n : nat) (i : Z) (v : VLVector) (temp : list T)
  : option (list T) :=
  match n with
  | O => Some temp
  | S n' =>
      x ← peek v i;
      temp' ← wr temp i x;
      copy_to_temp n' (i + 1) v temp'
  end.

Definition _increaseCapacity (v : VLVector) : result unit :=
  let v := set_capacity v
             (times_INCREASE_FACTOR (to_size_t (_size v + INCREASE_INC))) in
  let temp := new_array (to_size_t (sizeof_T * _capacity v)) in
  match copy_to_temp (Z.to_nat (_size v)) FIRST_IDX v temp with
  | None => Undefined
  | Some temp =>
      do (_, v) <- (if _dynamic v then delete_curData v else Ret tt v);
      Ret tt (set_dynamic (set_curData v (to_heap temp)) true)
  end.

(** [for (size_t idx = FIRST_IDX; idx < _size; ++idx)
       _statData[idx] = _curData[idx];] *)
Fixpoint copy_to_statData (n : nat) (idx : Z) (v : VLVector)
  : option VLVector :=
  match n with
  | O => Some v
  | S n' =>
      x ← peek v idx;
      c ← wr (_statData v) idx x;
      copy_to_statData n' (idx + 1) (set_statData v c)
  end.

Definition _decreaseCapacity (v : VLVector) : result unit :=
  match copy_to_statData (Z.to_nat (_size v)) FIRST_IDX v with
  | None => Undefined
  | Some v =>
      do (_, v) <- delete_curData v;
      Ret tt (set_dynamic
                (set_capacity (set_curData v to_statData) StaticCapacity)
                false)
  end.

(** ** Construction *)

(** [VLVector()] *)
Definition VLVector_ctor : VLVector :=
  {| _statData := new_array StaticCapacity;
     _dynamic := false;
     _size := STARTING_SIZE;
     _capacity := StaticCapacity;
     _curData := to_statData |}.

(** ** Observers *)

Definition size (v : VLVector) : Z := _size v.
Definition capacity (v : VLVector) : Z := _capacity v.
Definition empty (v : VLVector) : bool := _size v =? STARTING_SIZE.

(** Offsets of [begin()] and [end()]. *)
Definition begin_ (v : VLVector) : Z := 0.
Definition end_ (v : VLVector) : Z := _size v.

(** [operator[]] *)
Definition subscript (v : VLVector) (idx : Z) : result T := load v idx.

(** [at(idx)] *)
Definition at_ (v : VLVector) (idx : Z) : result T :=
  if _size v <=? idx then Throw out_of_range v else subscript v idx.

(** [for (it = begin(); it != end(); ++it) yield *it;] *)
Fixpoint traverse (fuel : nat) (it : Z) (v : VLVector) : option (list T) :=
  if it =? end_ v then Some []
  else match fuel with
       | O => None
       | S fuel' => x ← peek v it; (x ::.) <$> traverse fuel' (it + 1) v
       end.

Definition elements (v : VLVector) : option (list T) :=
  traverse (Z.to_nat (_size v)) (begin_ v) v.

(** ** Modifiers *)

Definition push_back (v : VLVector) (toAdd : T) : result unit :=
  do (_, v) <- (if _size v =? _capacity v then _increaseCapacity v
                else Ret tt v);
  do (_, v) <- store v (_size v) toAdd;
  Ret tt (set_size v (to_size_t (_size v + 1))).

(** [while (toCopy-- != (cbegin() + inPlc)) *(copyTo--) = *toCopy;]
    It stops when [toCopy] meets [inPlc]; a [toCopy] that never does runs
    below [data()], which is a read outside the block after at most
    [_size + 1] tests. *)
Fixpoint insert_shift (fuel : nat) (toCopy copyTo inPlc : Z) (v : VLVector)
  : result Z :=
  match fuel with
  | O => Undefined
  | S fuel' =>
      if toCopy =? inPlc then Ret copyTo v
      else
        do (x, v) <- load v (toCopy - 1);
        do (_, v) <- store v copyTo x;
        insert_shift fuel' (toCopy - 1) (copyTo - 1) inPlc v
  end.

(** [insert(iter, toAdd)], [iter] given by its offset from [cbegin()]. *)
Definition insert (v : VLVector) (iter : Z) (toAdd : T) : result Z :=
  let inPlc := to_size_t (iter - begin_ v) in
  do (_, v) <- (if _size v =? _capacity v then _increaseCapacity v
                else Ret tt v);
  do (copyTo, v) <-
     insert_shift (S (Z.to_nat (_size v))) (end_ v) (end_ v) inPlc v;
  do (_, v) <- store v copyTo toAdd;
  Ret copyTo (set_size v (to_size_t (_size v + 1))).

(** [while (curPlc != cend()) after.push_back( *(curPlc++));]
    run for the [n] cells between [curPlc] and [cend()]. *)
Fixpoint save_after (n : nat) (curPlc : Z) (v after : VLVector)
  : result unit :=
  match n with
  | O => Ret tt after
  | S n' =>
      match peek v curPlc with
      | None => Undefined
      | Some x =>
          do (_, after) <- push_back after x;
          save_after n' (curPlc + 1) v after
      end
  end.

(** [std::copy(first, last, d)] from a source outside the vector, whose
    elements are [xs], to offset [d]. *)
Fixpoint copy_in (xs : list T) (d : Z) (v : VLVector) : result unit :=
  match xs with
  | [] => Ret tt v
  | x :: xs' => do (_, v) <- store v d x; copy_in xs' (d + 1) v
  end.

(** [insert(iter, first, last)]; [rng] is the sequence [first, last). *)
Definition insert_range (v : VLVector) (iter : Z) (rng : list T)
  : result Z :=
  let inPlc := to_size_t (iter - begin_ v) in
  let dist := Z.of_nat (length rng) in
  (* a [curPlc] beyond [cend()] never meets it and leaves the block *)
  if end_ v <? iter then Undefined else
  match save_after (Z.to_nat (end_ v - iter)) iter v VLVector_ctor with
  | Ret _ after =>
      match elements after with
      | None => Undefined
      | Some saved =>
          let v := set_size v (to_size_t (_size v + dist)) in
          do (_, v) <- (if _size v >? _capacity v then _increaseCapacity v
                        else Ret tt v);
          let toIns := begin_ v + inPlc in
          do (_, v) <- copy_in rng toIns v;
          do (_, v) <- copy_in saved (toIns + dist) v;
          Ret toIns v
      end
  | Throw e _ => Throw e v
  | Undefined => Undefined
  end.

Definition pop_back (v : VLVector) : result unit :=
  let v := set_size v (to_size_t (_size v - 1)) in
  if (_size v <=? StaticCapacity) && _dynamic v then _decreaseCapacity v
  else Ret tt v.

(** [std::copy(first, last, d)] inside the vector: a forward loop over
    [last - first] cells. *)
Fixpoint copy_loop (n : nat) (first d : Z) (v : VLVector) : result unit :=
  match n with
  | O => Ret tt v
  | S n' =>
      do (x, v) <- load v first;
      do (_, v) <- store v d x;
      copy_loop n' (first + 1) (d + 1) v
  end.

Definition std_copy (first last d : Z) (v : VLVector) : result unit :=
  if last <? first then Undefined
  else copy_loop (Z.to_nat (last - first)) first d v.

(** [while (insTo != iter) ++insTo;] from [begin()]. *)
Fixpoint advance (fuel : nat) (insTo iter : Z) : option Z :=
  if insTo =? iter then Some insTo
  else match fuel with
       | O => None
       | S fuel' => advance fuel' (insTo + 1) iter
       end.

(** [erase(iter)]. The iterator returned is [insTo], computed before a
    possible [_decreaseCapacity]; the embedding returns its offset. *)
Definition erase (v : VLVector) (iter : Z) : result Z :=
  match advance (Z.to_nat iter) (begin_ v) iter with
  | None => Undefined
  | Some insTo =>
      let first := insTo + NEXT_ELEM in
      do (_, v) <- std_copy first (end_ v) insTo v;
      let v := set_size v (to_size_t (_size v - 1)) in
      do (_, v) <- (if (_size v <=? StaticCapacity) && _dynamic v
                    then _decreaseCapacity v else Ret tt v);
      Ret insTo v
  end.

(** [erase(first, last)] *)
Definition erase_range (v : VLVector) (first last : Z) : result Z :=
  let copyTo := begin_ v + (first - begin_ v) in
  do (_, v) <- std_copy last (end_ v) copyTo v;
  let v := set_size v (to_size_t (_size v - (last - first))) in
  do (_, v) <- (if (_size v <=? StaticCapacity) && _dynamic v
                then _decreaseCapacity v else Ret tt v);
  Ret copyTo v.

Definition clear (v : VLVector) : result unit :=
  do (_, v) <- (if _dynamic v
                then do (_, v) <- delete_curData v;
                     Ret tt (set_dynamic (set_curData v to_statData) false)
                else Ret tt v);
  Ret tt (set_size v STARTING_SIZE).

(** The argument of [operator=]: the object itself ([this == &rhs]) or
    another object. *)
Inductive assign_arg : Type :=
| this_object
| other_object (rhs : VLVector).

(** [operator=(rhs)] *)
Definition assign (v : VLVector) (arg : assign_arg) : result unit :=
  match arg with
  | this_object => Ret tt v
  | other_object rhs =>
      do (_, v) <- (if _dynamic v then delete_curData v else Ret tt v);
      let v := set_capacity v (capacity rhs) in
      let v :=
        if _capacity v >? StaticCapacity
        then set_dynamic
               (set_curData v
                  (to_heap (new_array (to_size_t (_capacity v * sizeof_T)))))
               true
        else v in
      match elements rhs with
      | None => Undefined
      | Some rng =>
          do (_, v) <- insert_range v (begin_ v) rng;
          Ret tt v
      end
  end.

(** [VLVector(toCopy)] *)
Definition VLVector_copy (toCopy : VLVector) : result unit :=
  assign VLVector_ctor (other_object toCopy).

(** [while (first != last) push_back( *(first++));] *)
Fixpoint push_all (xs : list T) (v : VLVector) : result unit :=
  match xs with
  | [] => Ret tt v
  | x :: xs' => do (_, v) <- push_back v x; push_all xs' v
  end.

(** [VLVector(first, last)] *)
Definition VLVector_range (xs : list T) : result unit :=
  push_all xs VLVector_ctor.

End Operations.

(** ** An instance: [VLVector<int, 4>] *)

Module Int4.

#[global] Instance tp : Template :=
  {| T := Z; T_default := 0; sizeof_T := 4; StaticCapacity := 4 |}.

(** The state a call leaves the object in. *)
Definition state_of {A : Type} (r : result A) : VLVector :=
  match r with
  | Ret _ v | Throw _ v => v
  | Undefined => VLVector_ctor
  end.

(** The vector built by [VLVector(first, last)] from the elements [xs]. *)
Definition built (xs : list Z) : VLVector := state_of (VLVector_range xs).

End Int4.

(** ** Comparison and element assignment *)

(** [operator==] of the element type, which [std::equal] calls. *)
Class Comparable (tp : Template) := {
  T_eq : T → T → bool;
}.

Section Comparison.
Context {tp : Template} {cmp : Comparable tp}.

(** [std::equal(cbegin(), cend(), toComp.cbegin())]: it walks the [n] cells
    from [cbegin()] to [cend()] and stops at the first pair that differs. *)
Fixpoint std_equal (n : nat) (i : Z) (v toComp : VLVector) : option bool :=
  match n with
  | O => Some true
  | S n' =>
      x ← peek v i;
      y ← peek toComp i;
      if T_eq x y then std_equal n' (i + 1) v toComp else Some false
  end.

(** [operator==(toComp)] *)
Definition operator_eq (v toComp : VLVector) : result bool :=
  if size v =? size toComp
  then lift (std_equal (Z.to_nat (_size v)) (begin_ v) v toComp) v
  else Ret false v.

(** [operator!=(toComp)] *)
Definition operator_ne (v toComp : VLVector) : result bool :=
  do (b, v) <- operator_eq v toComp; Ret (negb b) v.

End Comparison.

Section ElementAssignment.
Context {tp : Template}.

(** [v[idx] = x]: an assignment through the reference that the non-const
    [operator[]] returns. *)
Definition subscript_assign (v : VLVector) (idx : Z) (x : T) : result unit :=
  store v idx x.

(** [v.at(idx) = x]: an assignment through the reference that the non-const
    [at] returns. *)
Definition at_assign (v : VLVector) (idx : Z) (x : T) : result unit :=
  if _size v <=? idx then Throw out_of_range v else subscript_assign v idx x.

(** The number of cells of the block [data()] points into. *)
Definition active_cells (v : VLVector) : Z :=
  match block v with
  | Some c => Z.of_nat (length c)
  | None => 0
  end.

End ElementAssignment.

(** [int] is compared with [==]. *)
#[global] Instance Int4_comparable : Comparable Int4.tp :=
  {| T_eq := Z.eqb |}.

(** The calls that change the number of elements without replacing the
    whole content, each within its precondition and within [size_t]. *)
Inductive resizing_step {tp : Template} : VLVector → VLVector → Prop :=
| step_push_back (v : VLVector) (x : T) (a : unit) (v' : VLVector) :
    _size v + 1 < size_t_modulus →
    push_back v x = Ret a v' → resizing_step v v'
| step_insert (v : VLVector) (iter : Z) (x : T) (r : Z) (v' : VLVector) :
    _size v + 1 < size_t_modulus →
    insert v iter x = Ret r v' → resizing_step v v'
| step_insert_range (v : VLVector) (iter : Z) (rng : list T) (r : Z)
    (v' : VLVector) :
    _size v + Z.of_nat (length rng) < size_t_modulus →
    insert_range v iter rng = Ret r v' → resizing_step v v'
| step_pop_back (v : VLVector) (a : unit) (v' : VLVector) :
    0 < _size v →
    pop_back v = Ret a v' → resizing_step v v'
| step_erase (v : VLVector) (iter : Z) (r : Z) (v' : VLVector) :
    erase v iter = Ret r v' → resizing_step v v'
| step_erase_range (v : VLVector) (first last : Z) (r : Z) (v' : VLVector) :
    0 ≤ first ≤ last →
    erase_range v first last = Ret r v' → resizing_step v v'.

(** * Specification vocabulary *)

Section Vocabulary.
Context {tp : Template}.

(** The template arguments make sense: [StaticCapacity] is a [size_t] and
    [sizeof(T)] is at least one. *)
Definition sane_template : bool :=
  (0 <=? StaticCapacity) && (StaticCapacity <? size_t_modulus)
  && (1 <=? sizeof_T).

(** A vector of [n] elements can grow without [size_t] wrap-around, neither
    in the new capacity nor in the length passed to [new]. *)
Definition room (n : Z) : Prop := 3 * sizeof_T * (n + 1) < size_t_modulus.

(** Same bookkeeping fields: only cells differ. *)
Definition same_header (v v' : VLVector) : Prop :=
  _size v' = _size v ∧ _capacity v' = _capacity v
  ∧ _dynamic v' = _dynamic v.

(** The object is consistent: the inline array has [StaticCapacity] cells,
    [_size <= _capacity], the active block has at least [_capacity] cells,
    and [_dynamic] says whether [_curData] points to a live heap block. *)
Definition valid (v : VLVector) : bool :=
  (Z.of_nat (length (_statData v)) =? StaticCapacity)
  && (0 <=? _size v) && (_size v <=? _capacity v)
  && (_capacity v <? size_t_modulus)
  && match _curData v with
     | to_statData => negb (_dynamic v) && (_capacity v <=? StaticCapacity)
     | to_heap c => _dynamic v && (_capacity v <=? Z.of_nat (length c))
     | dangling => false
     end.

(** The mode follows the size: static objects have the static capacity and
    an object is dynamic exactly when it holds more than [StaticCapacity]
    elements. *)
Definition tight (v : VLVector) : Prop :=
  (_dynamic v = false → _capacity v = StaticCapacity) ∧
  (_dynamic v = true ↔ StaticCapacity < _size v).

(** The vector holds the sequence [l]: its first [_size] cells are [l]. *)
Definition holds (v : VLVector) (l : list T) : Prop :=
  _size v = Z.of_nat (length l) ∧ ∃ rest, block v = Some (l ++ rest).

(** The object with the cells of its active block replaced. *)
Definition with_block (v : VLVector) (c : list T) : VLVector :=
  match _curData v with
  | to_statData => set_statData v c
  | to_heap _ => set_curData v (to_heap c)
  | dangling => v
  end.

(** Single-element inserts of [xs], one after the other, each at the
    position after the previous one; the first position is returned. *)
Fixpoint insert_each (xs : list T) (iter : Z) (v : VLVector) : result Z :=
  match xs with
  | [] => Ret iter v
  | x :: xs' =>
      do (it, v) <- insert v iter x;
      do (_, v) <- insert_each xs' (it + 1) v;
      Ret it v
  end.

(** The size-increasing calls, the test each one makes before it calls
    [_increaseCapacity], and the value of [_size] at that moment. *)
Inductive growing_call : Type :=
| call_push_back (toAdd : T)
| call_insert (iter : Z) (toAdd : T)
| call_insert_range (iter : Z) (rng : list T).

Definition run_call (c : growing_call) (v : VLVector) : result unit :=
  match c with
  | call_push_back x => push_back v x
  | call_insert iter x => do (_, v) <- insert v iter x; Ret tt v
  | call_insert_range iter rng =>
      do (_, v) <- insert_range v iter rng; Ret tt v
  end.

Definition triggers_growth (c : growing_call) (v : VLVector) : bool :=
  match c with
  | call_push_back _ | call_insert _ _ => _size v =? _capacity v
  | call_insert_range _ rng =>
      to_size_t (_size v + Z.of_nat (length rng)) >? _capacity v
  end.

Definition size_at_growth (c : growing_call) (v : VLVector) : Z :=
  match c with
  | call_push_back _ | call_insert _ _ => _size v
  | call_insert_range _ rng => _size v + Z.of_nat (length rng)
  end.

(** [0 <= _size <= _capacity] *)
Definition size_le_capacity (v : VLVector) : Prop :=
  0 ≤ _size v ≤ _capacity v.

(** The element count stays below the point where the growth formula wraps
    around. *)
Definition within_limits (v : VLVector) : Prop :=
  3 * (_size v + 1) < size_t_modulus.

(** The states a program reaches with the public operations, each called
    within its precondition (a non-empty vector for [pop_back], a
    non-reversed range inside the vector for the range [erase]) and
    completing normally within [within_limits]. *)
Inductive reachable : VLVector → Prop :=
| reach_ctor : reachable VLVector_ctor
| reach_range_ctor (xs : list T) (a : unit) (v' : VLVector) :
    VLVector_range xs = Ret a v' →
    3 * (Z.of_nat (length xs) + 1) < size_t_modulus →
    reachable v'
| reach_copy_ctor (toCopy : VLVector) (a : unit) (v' : VLVector) :
    reachable toCopy →
    VLVector_copy toCopy = Ret a v' → within_limits v' →
    reachable v'
| reach_push_back (v : VLVector) (x : T) (a : unit) (v' : VLVector) :
    reachable v →
    push_back v x = Ret a v' → within_limits v' →
    reachable v'
| reach_pop_back (v : VLVector) (a : unit) (v' : VLVector) :
    reachable v → 0 < _size v →
    pop_back v = Ret a v' →
    reachable v'
| reach_insert (v : VLVector) (iter : Z) (x : T) (r : Z) (v' : VLVector) :
    reachable v →
    insert v iter x = Ret r v' → within_limits v' →
    reachable v'
| reach_insert_range (v : VLVector) (iter : Z) (rng : list T) (r : Z)
    (v' : VLVector) :
    reachable v →
    insert_range v iter rng = Ret r v' → within_limits v' →
    reachable v'
| reach_erase (v : VLVector) (iter : Z) (r : Z) (v' : VLVector) :
    reachable v →
    erase v iter = Ret r v' →
    reachable v'
| reach_erase_range (v : VLVector) (first last : Z) (r : Z) (v' : VLVector) :
    reachable v → 0 ≤ first ≤ last ∧ last ≤ _size v →
    erase_range v first last = Ret r v' →
    reachable v'
| reach_clear (v : VLVector) (a : unit) (v' : VLVector) :
    reachable v →
    clear v = Ret a v' →
    reachable v'
| reach_assign (v rhs : VLVector) (a : unit) (v' : VLVector) :
    reachable v → reachable rhs →
    assign v (other_object rhs) = Ret a v' → within_limits v' →
    reachable v'
| reach_assign_self (v : VLVector) (a : unit) (v' : VLVector) :
    reachable v →
    assign v this_object = Ret a v' →
    reachable v'.

End Vocabulary.

(** * Properties *)

(** ** [size_t] arithmetic *)

Lemma size_t_modulus_eq : size_t_modulus = 18446744073709551616.
Proof. reflexivity. Qed.

Lemma to_size_t_range (z : Z) : 0 ≤ to_size_t z < size_t_modulus.
Proof. unfold to_size_t. apply Z.mod_pos_bound. reflexivity. Qed.

Lemma to_size_t_small (z : Z) : 0 ≤ z < size_t_modulus → to_size_t z = z.
Proof. intros H. unfold to_size_t. apply Z.mod_small. exact H. Qed.

Lemma to_size_t_le (z : Z) : 0 ≤ z → to_size_t z ≤ z.
Proof. intros H. unfold to_size_t. apply Z.mod_le; [exact H | reflexivity]. Qed.

(** Without wrap-around the growth formula is [(n * 3) / 2]. *)
Lemma times_INCREASE_FACTOR_small (n : Z) :
  0 ≤ n → 3 * n < size_t_modulus → times_INCREASE_FACTOR n = n * 3 / 2.
Proof.
  intros H0 H. unfold times_INCREASE_FACTOR.
  rewrite to_size_t_small; [reflexivity | lia].
Qed.

(** The new capacity has room for the new element. *)
Lemma times_INCREASE_FACTOR_ge (n : Z) :
  0 ≤ n → 3 * n < size_t_modulus → n ≤ times_INCREASE_FACTOR n.
Proof.
  intros H0 H. rewrite times_INCREASE_FACTOR_small by assumption.
  apply Z.div_le_lower_bound; lia.
Qed.

Lemma times_INCREASE_FACTOR_range (n : Z) :
  0 ≤ times_INCREASE_FACTOR n < size_t_modulus.
Proof.
  unfold times_INCREASE_FACTOR.
  pose proof (to_size_t_range (n * 3)) as H. split.
  - apply Z.div_pos; lia.
  - apply Z.div_lt_upper_bound; lia.
Qed.

Section Frames.
Context {tp : Template}.

(** ** The monad *)

Lemma bind_Ret {A B : Type} (a : A) (v : VLVector)
    (k : A → VLVector → result B) :
  bind (Ret a v) k = k a v.
Proof. done. Qed.

Lemma bind_Ret_inv {A B : Type} (m : result A) (k : A → VLVector → result B)
    (b : B) (v' : VLVector) :
  bind m k = Ret b v' → ∃ a v1, m = Ret a v1 ∧ k a v1 = Ret b v'.
Proof. destruct m as [a v1| |]; simpl; intros H; [eauto | done | done]. Qed.

Lemma lift_Ret_inv {A : Type} (o : option A) (v : VLVector) (a : A)
    (v' : VLVector) :
  lift o v = Ret a v' → o = Some a ∧ v' = v.
Proof. destruct o; simpl; intros H; [by inversion H | done]. Qed.

(** ** Cells *)

Lemma rd_nat (c : list T) (i : nat) : rd c (Z.of_nat i) = c !! i.
Proof.
  unfold rd. destruct (decide (0 ≤ Z.of_nat i)); [|lia].
  by rewrite Nat2Z.id.
Qed.

Lemma rd_Some (c : list T) (i : Z) (x : T) :
  rd c i = Some x →
  0 ≤ i < Z.of_nat (length c) ∧ c !! Z.to_nat i = Some x.
Proof.
  unfold rd. destruct (decide (0 ≤ i)); [|done]. intros H.
  apply lookup_lt_Some in H as Hlt. split; [lia | done].
Qed.

Lemma wr_nat (c : list T) (i : nat) (x : T) :
  (i < length c)%nat → wr c (Z.of_nat i) x = Some (<[i := x]> c).
Proof.
  intros H. unfold wr.
  destruct (decide (0 ≤ Z.of_nat i < Z.of_nat (length c))); [|lia].
  by rewrite Nat2Z.id.
Qed.

Lemma wr_Some (c : list T) (i : Z) (x : T) (c' : list T) :
  wr c i x = Some c' →
  0 ≤ i < Z.of_nat (length c) ∧ c' = <[Z.to_nat i := x]> c.
Proof.
  unfold wr. destruct (decide (0 ≤ i < Z.of_nat (length c))); [|done].
  intros H. by inversion H.
Qed.

Lemma wr_length (c : list T) (i : Z) (x : T) (c' : list T) :
  wr c i x = Some c' → length c' = length c.
Proof. intros H. apply wr_Some in H as [_ ->]. apply length_insert. Qed.

(** ** What a call leaves untouched *)

Lemma same_header_refl (v : VLVector) : same_header v v.
Proof. done. Qed.

Lemma same_header_trans (v1 v2 v3 : VLVector) :
  same_header v1 v2 → same_header v2 v3 → same_header v1 v3.
Proof.
  unfold same_header. intros (?&?&?) (?&?&?). repeat split; congruence.
Qed.

Lemma poke_header (v : VLVector) (i : Z) (x : T) (v' : VLVector) :
  poke v i x = Some v' → same_header v v'.
Proof.
  unfold poke. destruct (_curData v); [| |done].
  - destruct (wr _ _ _); [|done]. intros [= <-]. done.
  - destruct (wr _ _ _); [|done]. intros [= <-]. done.
Qed.

Lemma store_header (v : VLVector) (i : Z) (x : T) (a : unit) (v' : VLVector) :
  store v i x = Ret a v' → same_header v v'.
Proof.
  unfold store. destruct (poke v i x) eqn:E; [|done].
  intros [= _ <-]. by eapply poke_header.
Qed.

Lemma load_state (v : VLVector) (i : Z) (x : T) (v' : VLVector) :
  load v i = Ret x v' → v' = v.
Proof. unfold load. intros H. by apply lift_Ret_inv in H as [_ ->]. Qed.

Lemma copy_loop_header (n : nat) (first d : Z) (v : VLVector) (a : unit)
    (v' : VLVector) :
  copy_loop n first d v = Ret a v' → same_header v v'.
Proof.
  revert first d v. induction n as [|n IH]; intros first d v; simpl.
  - intros [= _ <-]. done.
  - intros H. apply bind_Ret_inv in H as (x & v1 & H1 & H).
    apply load_state in H1 as ->.
    apply bind_Ret_inv in H as (u & v2 & H2 & H).
    apply store_header in H2. apply IH in H.
    by eapply same_header_trans.
Qed.

Lemma std_copy_header (first last d : Z) (v : VLVector) (a : unit)
    (v' : VLVector) :
  std_copy first last d v = Ret a v' → first ≤ last ∧ same_header v v'.
Proof.
  unfold std_copy. destruct (last <? first) eqn:E; [done|].
  intros H. apply copy_loop_header in H. split; [lia | done].
Qed.

Lemma copy_in_header (xs : list T) (d : Z) (v : VLVector) (a : unit)
    (v' : VLVector) :
  copy_in xs d v = Ret a v' → same_header v v'.
Proof.
  revert d v. induction xs as [|x xs IH]; intros d v; simpl.
  - intros [= _ <-]. done.
  - intros H. apply bind_Ret_inv in H as (u & v1 & H1 & H).
    apply store_header in H1. apply IH in H.
    by eapply same_header_trans.
Qed.

Lemma insert_shift_header (fuel : nat) (toCopy copyTo inPlc : Z)
    (v : VLVector) (r : Z) (v' : VLVector) :
  insert_shift fuel toCopy copyTo inPlc v = Ret r v' → same_header v v'.
Proof.
  revert toCopy copyTo v. induction fuel as [|fuel IH];
    intros toCopy copyTo v; simpl; [done|].
  destruct (toCopy =? inPlc).
  - intros [= _ <-]. done.
  - intros H. apply bind_Ret_inv in H as (x & v1 & H1 & H).
    apply load_state in H1 as ->.
    apply bind_Ret_inv in H as (u & v2 & H2 & H).
    apply store_header in H2. apply IH in H.
    by eapply same_header_trans.
Qed.

Lemma delete_curData_header (v : VLVector) (a : unit) (v' : VLVector) :
  delete_curData v = Ret a v' → same_header v v'.
Proof.
  unfold delete_curData. destruct (_curData v); [done| |done].
  intros [= _ <-]. done.
Qed.

(** [_increaseCapacity] keeps [_size], sets the capacity by the formula and
    switches to dynamic mode. *)
Lemma _increaseCapacity_header (v : VLVector) (a : unit) (v' : VLVector) :
  _increaseCapacity v = Ret a v' →
  _size v' = _size v ∧
  _capacity v' = times_INCREASE_FACTOR (to_size_t (_size v + INCREASE_INC)) ∧
  _dynamic v' = true.
Proof.
  unfold _increaseCapacity. simpl.
  destruct (copy_to_temp _ _ _ _); [|done].
  intros H. apply bind_Ret_inv in H as (u & v1 & H1 & H).
  injection H as _ <-. simpl.
  destruct (_dynamic v).
  - apply delete_curData_header in H1 as (? & ? & ?). simpl in *. done.
  - injection H1 as _ <-. done.
Qed.

Lemma copy_to_statData_header (n : nat) (idx : Z) (v v' : VLVector) :
  copy_to_statData n idx v = Some v' → same_header v v'.
Proof.
  revert idx v. induction n as [|n IH]; intros idx v; simpl.
  - intros [= <-]. done.
  - destruct (peek v idx); [|done]. simpl.
    destruct (wr _ _ _); [|done]. simpl.
    intros H. apply IH in H. done.
Qed.

(** [_decreaseCapacity] keeps [_size], resets the capacity and switches to
    static mode. *)
Lemma _decreaseCapacity_header (v : VLVector) (a : unit) (v' : VLVector) :
  _decreaseCapacity v = Ret a v' →
  _size v' = _size v ∧ _capacity v' = StaticCapacity ∧ _dynamic v' = false.
Proof.
  unfold _decreaseCapacity.
  destruct (copy_to_statData _ _ _) as [v0|] eqn:E; [|done].
  apply copy_to_statData_header in E as (Es & Ec & Ed).
  intros H. apply bind_Ret_inv in H as (u & v1 & H1 & H).
  apply delete_curData_header in H1 as (Es1 & Ec1 & Ed1).
  injection H as _ <-. simpl. split; [congruence | done].
Qed.

End Frames.

Section Headers.
Context {tp : Template}.

(** ** Bookkeeping of the public operations *)

(** The common prologue of [push_back] and [insert]. *)
Lemma grow_if_full_header (v : VLVector) (a : unit) (v' : VLVector) :
  (if _size v =? _capacity v then _increaseCapacity v else Ret tt v)
    = Ret a v' →
  _size v' = _size v ∧
  (if _size v =? _capacity v
   then _capacity v'
          = times_INCREASE_FACTOR (to_size_t (_size v + INCREASE_INC))
        ∧ _dynamic v' = true
   else _capacity v' = _capacity v ∧ _dynamic v' = _dynamic v).
Proof.
  destruct (_size v =? _capacity v).
  - intros H. apply _increaseCapacity_header in H as (? & ? & ?). done.
  - intros [= _ <-]. done.
Qed.

Lemma push_back_header (v : VLVector) (toAdd : T) (a : unit)
    (v' : VLVector) :
  push_back v toAdd = Ret a v' →
  _size v' = to_size_t (_size v + 1) ∧
  (if _size v =? _capacity v
   then _capacity v'
          = times_INCREASE_FACTOR (to_size_t (_size v + INCREASE_INC))
        ∧ _dynamic v' = true
   else _capacity v' = _capacity v ∧ _dynamic v' = _dynamic v).
Proof.
  unfold push_back. intros H.
  apply bind_Ret_inv in H as (u1 & v1 & H1 & H).
  apply bind_Ret_inv in H as (u2 & v2 & H2 & H).
  apply grow_if_full_header in H1 as (Hs & Hc).
  apply store_header in H2 as (Hs2 & Hc2 & Hd2).
  injection H as _ <-. simpl. rewrite Hs2, Hc2, Hd2, Hs. done.
Qed.

Lemma insert_header (v : VLVector) (iter : Z) (toAdd : T) (r : Z)
    (v' : VLVector) :
  insert v iter toAdd = Ret r v' →
  _size v' = to_size_t (_size v + 1) ∧
  (if _size v =? _capacity v
   then _capacity v'
          = times_INCREASE_FACTOR (to_size_t (_size v + INCREASE_INC))
        ∧ _dynamic v' = true
   else _capacity v' = _capacity v ∧ _dynamic v' = _dynamic v).
Proof.
  unfold insert. intros H.
  apply bind_Ret_inv in H as (u1 & v1 & H1 & H).
  apply bind_Ret_inv in H as (p & v2 & H2 & H).
  apply bind_Ret_inv in H as (u3 & v3 & H3 & H).
  apply grow_if_full_header in H1 as (Hs & Hc).
  apply insert_shift_header in H2 as (Hs2 & Hc2 & Hd2).
  apply store_header in H3 as (Hs3 & Hc3 & Hd3).
  injection H as _ <-. simpl.
  rewrite Hs3, Hc3, Hd3, Hs2, Hc2, Hd2, Hs. done.
Qed.

Lemma insert_range_header (v : VLVector) (iter : Z) (rng : list T) (r : Z)
    (v' : VLVector) :
  insert_range v iter rng = Ret r v' →
  let n := to_size_t (_size v + Z.of_nat (length rng)) in
  r = to_size_t iter ∧ iter ≤ _size v ∧
  _size v' = n ∧
  (if n >? _capacity v
   then _capacity v' = times_INCREASE_FACTOR (to_size_t (n + INCREASE_INC))
        ∧ _dynamic v' = true
   else _capacity v' = _capacity v ∧ _dynamic v' = _dynamic v).
Proof.
  intros H n. unfold insert_range, end_, begin_ in H.
  destruct (_size v <? iter) eqn:Ei; [done|].
  destruct (save_after _ _ _ _) as [u after| |]; [|done|done].
  destruct (elements after) as [saved|]; [|done].
  apply bind_Ret_inv in H as (u1 & v1 & H1 & H).
  apply bind_Ret_inv in H as (u2 & v2 & H2 & H).
  apply bind_Ret_inv in H as (u3 & v3 & H3 & H).
  apply copy_in_header in H2 as (Hs2 & Hc2 & Hd2).
  apply copy_in_header in H3 as (Hs3 & Hc3 & Hd3).
  injection H as <- <-. rewrite Z.sub_0_r, Z.add_0_l.
  split; [done|]. split; [lia|].
  rewrite Hs3, Hc3, Hd3, Hs2, Hc2, Hd2. simpl in H1. fold n in H1.
  destruct (n >? _capacity v).
  - apply _increaseCapacity_header in H1 as (? & ? & ?). done.
  - injection H1 as _ <-. done.
Qed.

(** The common epilogue of [pop_back] and the two [erase]. *)
Lemma shrink_if_small_header (v : VLVector) (a : unit) (v' : VLVector) :
  (if (_size v <=? StaticCapacity) && _dynamic v then _decreaseCapacity v
   else Ret tt v) = Ret a v' →
  _size v' = _size v ∧
  (if (_size v <=? StaticCapacity) && _dynamic v
   then _capacity v' = StaticCapacity ∧ _dynamic v' = false
   else _capacity v' = _capacity v ∧ _dynamic v' = _dynamic v).
Proof.
  destruct ((_size v <=? StaticCapacity) && _dynamic v).
  - intros H. apply _decreaseCapacity_header in H as (? & ? & ?). done.
  - intros [= _ <-]. done.
Qed.

Lemma pop_back_header (v : VLVector) (a : unit) (v' : VLVector) :
  pop_back v = Ret a v' →
  let n := to_size_t (_size v - 1) in
  _size v' = n ∧
  (if (n <=? StaticCapacity) && _dynamic v
   then _capacity v' = StaticCapacity ∧ _dynamic v' = false
   else _capacity v' = _capacity v ∧ _dynamic v' = _dynamic v).
Proof.
  intros H n. unfold pop_back in H.
  apply shrink_if_small_header in H. simpl in H. done.
Qed.

Lemma advance_Some (fuel : nat) (insTo iter r : Z) :
  advance fuel insTo iter = Some r → r = iter ∧ insTo ≤ iter.
Proof.
  revert insTo. induction fuel as [|fuel IH]; intros insTo; simpl.
  - destruct (insTo =? iter) eqn:E; [|done]. intros [= <-]. lia.
  - destruct (insTo =? iter) eqn:E.
    + intros [= <-]. lia.
    + intros H. apply IH in H. lia.
Qed.

Lemma erase_header (v : VLVector) (iter : Z) (r : Z) (v' : VLVector) :
  erase v iter = Ret r v' →
  let n := to_size_t (_size v - 1) in
  r = iter ∧ 0 ≤ iter < _size v ∧
  _size v' = n ∧
  (if (n <=? StaticCapacity) && _dynamic v
   then _capacity v' = StaticCapacity ∧ _dynamic v' = false
   else _capacity v' = _capacity v ∧ _dynamic v' = _dynamic v).
Proof.
  intros H n. unfold erase, begin_, end_, NEXT_ELEM in H.
  destruct (advance _ _ _) as [insTo|] eqn:Ea; [|done].
  apply advance_Some in Ea as [-> Hi].
  apply bind_Ret_inv in H as (u1 & v1 & H1 & H).
  apply bind_Ret_inv in H as (u2 & v2 & H2 & H).
  apply std_copy_header in H1 as (Hle & Hs1 & Hc1 & Hd1).
  apply shrink_if_small_header in H2. simpl in H2.
  injection H as <- <-.
  rewrite Hs1, Hc1, Hd1 in H2. fold n in H2.
  split; [done|]. split; [lia|]. done.
Qed.

Lemma erase_range_header (v : VLVector) (first last : Z) (r : Z)
    (v' : VLVector) :
  erase_range v first last = Ret r v' →
  let n := to_size_t (_size v - (last - first)) in
  r = first ∧ last ≤ _size v ∧
  _size v' = n ∧
  (if (n <=? StaticCapacity) && _dynamic v
   then _capacity v' = StaticCapacity ∧ _dynamic v' = false
   else _capacity v' = _capacity v ∧ _dynamic v' = _dynamic v).
Proof.
  intros H n. unfold erase_range, begin_, end_ in H.
  apply bind_Ret_inv in H as (u1 & v1 & H1 & H).
  apply bind_Ret_inv in H as (u2 & v2 & H2 & H).
  apply std_copy_header in H1 as (Hle & Hs1 & Hc1 & Hd1).
  apply shrink_if_small_header in H2. simpl in H2.
  injection H as <- <-.
  rewrite Hs1, Hc1, Hd1 in H2. fold n in H2.
  split; [lia|]. split; [lia|]. done.
Qed.

Lemma clear_header (v : VLVector) (a : unit) (v' : VLVector) :
  clear v = Ret a v' →
  _size v' = 0 ∧ _capacity v' = _capacity v ∧ _dynamic v' = false.
Proof.
  unfold clear. intros H.
  apply bind_Ret_inv in H as (u1 & v1 & H1 & H).
  injection H as _ <-. simpl.
  destruct (_dynamic v) eqn:Ed.
  - apply bind_Ret_inv in H1 as (u2 & v2 & H2 & H1).
    apply delete_curData_header in H2 as (? & ? & ?).
    injection H1 as _ <-. simpl. done.
  - injection H1 as _ <-. done.
Qed.

Lemma assign_other_header (v rhs : VLVector) (a : unit) (v' : VLVector) :
  assign v (other_object rhs) = Ret a v' →
  ∃ rng, elements rhs = Some rng ∧
  let n := to_size_t (_size v + Z.of_nat (length rng)) in
  _size v' = n ∧
  (if n >? _capacity rhs
   then _capacity v' = times_INCREASE_FACTOR (to_size_t (n + INCREASE_INC))
   else _capacity v' = _capacity rhs).
Proof.
  intros H. unfold assign, capacity in H.
  apply bind_Ret_inv in H as (u1 & v1 & H1 & H).
  destruct (elements rhs) as [rng|]; [|done].
  exists rng. split; [done|]. intros n.
  apply bind_Ret_inv in H as (r & v2 & H2 & H).
  injection H as _ <-.
  assert (_size v1 = _size v) as Hs1.
  { destruct (_dynamic v).
    - apply delete_curData_header in H1 as (? & ? & ?). done.
    - by injection H1 as _ <-. }
  apply insert_range_header in H2 as (_ & _ & Hs & Hc).
  simpl in Hs, Hc.
  destruct (_capacity rhs >? StaticCapacity); simpl in Hs, Hc;
    rewrite Hs1 in Hs, Hc; fold n in Hs, Hc;
    (split; [done|]); destruct (n >? _capacity rhs); tauto.
Qed.

End Headers.

Section Invariant.
Context {tp : Template}.

(** ** [_size <= _capacity] is kept by every operation *)

Lemma push_back_size_le_capacity (v : VLVector) (x : T) (a : unit)
    (v' : VLVector) :
  size_le_capacity v → push_back v x = Ret a v' → within_limits v' →
  size_le_capacity v'.
Proof.
  unfold size_le_capacity, within_limits. intros Hv H Hlim.
  apply push_back_header in H as (Hs & Hc).
  pose proof (to_size_t_range (_size v + 1)) as Hr.
  destruct (_size v =? _capacity v) eqn:E.
  - destruct Hc as [Hc _]. rewrite Hc, Hs. unfold INCREASE_INC.
    split; [lia|]. apply times_INCREASE_FACTOR_ge; lia.
  - destruct Hc as [Hc _]. rewrite Hc, Hs.
    pose proof (to_size_t_le (_size v + 1)). lia.
Qed.

Lemma insert_size_le_capacity (v : VLVector) (iter : Z) (x : T) (r : Z)
    (v' : VLVector) :
  size_le_capacity v → insert v iter x = Ret r v' → within_limits v' →
  size_le_capacity v'.
Proof.
  unfold size_le_capacity, within_limits. intros Hv H Hlim.
  apply insert_header in H as (Hs & Hc).
  pose proof (to_size_t_range (_size v + 1)) as Hr.
  destruct (_size v =? _capacity v) eqn:E.
  - destruct Hc as [Hc _]. rewrite Hc, Hs. unfold INCREASE_INC.
    split; [lia|]. apply times_INCREASE_FACTOR_ge; lia.
  - destruct Hc as [Hc _]. rewrite Hc, Hs.
    pose proof (to_size_t_le (_size v + 1)). lia.
Qed.

Lemma insert_range_size_le_capacity (v : VLVector) (iter : Z) (rng : list T)
    (r : Z) (v' : VLVector) :
  insert_range v iter rng = Ret r v' → within_limits v' →
  size_le_capacity v'.
Proof.
  unfold size_le_capacity, within_limits. intros H Hlim.
  apply insert_range_header in H as (_ & _ & Hs & Hc).
  pose proof (to_size_t_range (_size v + Z.of_nat (length rng))) as Hr.
  set (n := to_size_t (_size v + Z.of_nat (length rng))) in *.
  rewrite Hs in Hlim |- *.
  destruct (n >? _capacity v) eqn:E.
  - destruct Hc as [Hc _]. rewrite Hc. unfold INCREASE_INC.
    rewrite (to_size_t_small (n + 1)) by lia. split; [lia|].
    pose proof (times_INCREASE_FACTOR_ge (n + 1)). lia.
  - destruct Hc as [Hc _]. rewrite Hc. lia.
Qed.

Lemma shrunk_size_le_capacity (v v' : VLVector) (n : Z) :
  0 ≤ n ≤ _capacity v →
  _size v' = n →
  (if (n <=? StaticCapacity) && _dynamic v
   then _capacity v' = StaticCapacity ∧ _dynamic v' = false
   else _capacity v' = _capacity v ∧ _dynamic v' = _dynamic v) →
  size_le_capacity v'.
Proof.
  unfold size_le_capacity. intros Hn Hs Hc. rewrite Hs.
  destruct (n <=? StaticCapacity) eqn:E; simpl in Hc.
  - destruct (_dynamic v); destruct Hc as [Hc _]; rewrite Hc; lia.
  - destruct Hc as [Hc _]; rewrite Hc; lia.
Qed.

Lemma pop_back_size_le_capacity (v : VLVector) (a : unit) (v' : VLVector) :
  size_le_capacity v → 0 < _size v → pop_back v = Ret a v' →
  size_le_capacity v'.
Proof.
  intros Hv Hpos H. unfold size_le_capacity in Hv.
  apply pop_back_header in H as (Hs & Hc).
  pose proof (to_size_t_le (_size v - 1)).
  pose proof (to_size_t_range (_size v - 1)).
  eapply shrunk_size_le_capacity; [|exact Hs|exact Hc]. lia.
Qed.

Lemma erase_size_le_capacity (v : VLVector) (iter r : Z) (v' : VLVector) :
  size_le_capacity v → erase v iter = Ret r v' → size_le_capacity v'.
Proof.
  intros Hv H. unfold size_le_capacity in Hv.
  apply erase_header in H as (_ & Hi & Hs & Hc).
  pose proof (to_size_t_le (_size v - 1)).
  pose proof (to_size_t_range (_size v - 1)).
  eapply shrunk_size_le_capacity; [|exact Hs|exact Hc]. lia.
Qed.

Lemma erase_range_size_le_capacity (v : VLVector) (first last r : Z)
    (v' : VLVector) :
  size_le_capacity v → 0 ≤ first ≤ last →
  erase_range v first last = Ret r v' → size_le_capacity v'.
Proof.
  intros Hv Hfl H. unfold size_le_capacity in Hv.
  apply erase_range_header in H as (_ & Hl & Hs & Hc).
  pose proof (to_size_t_le (_size v - (last - first))).
  pose proof (to_size_t_range (_size v - (last - first))).
  eapply shrunk_size_le_capacity; [|exact Hs|exact Hc]. lia.
Qed.

Lemma clear_size_le_capacity (v : VLVector) (a : unit) (v' : VLVector) :
  size_le_capacity v → clear v = Ret a v' → size_le_capacity v'.
Proof.
  unfold size_le_capacity. intros Hv H.
  apply clear_header in H as (Hs & Hc & _). lia.
Qed.

Lemma assign_other_size_le_capacity (v rhs : VLVector) (a : unit)
    (v' : VLVector) :
  assign v (other_object rhs) = Ret a v' → within_limits v' →
  size_le_capacity v'.
Proof.
  unfold size_le_capacity, within_limits. intros H Hlim.
  apply assign_other_header in H as (rng & _ & Hs & Hc).
  pose proof (to_size_t_range (_size v + Z.of_nat (length rng))) as Hr.
  set (n := to_size_t (_size v + Z.of_nat (length rng))) in *.
  rewrite Hs in Hlim |- *.
  destruct (n >? _capacity rhs) eqn:E.
  - rewrite Hc. unfold INCREASE_INC.
    rewrite (to_size_t_small (n + 1)) by lia. split; [lia|].
    pose proof (times_INCREASE_FACTOR_ge (n + 1)). lia.
  - rewrite Hc. lia.
Qed.

Lemma push_all_size_le_capacity (xs : list T) (v : VLVector) (a : unit)
    (v' : VLVector) :
  size_le_capacity v →
  3 * (_size v + Z.of_nat (length xs) + 1) < size_t_modulus →
  push_all xs v = Ret a v' →
  size_le_capacity v' ∧ _size v' = _size v + Z.of_nat (length xs).
Proof.
  revert v. induction xs as [|x xs IH]; intros v Hv Hlim; simpl.
  - intros [= _ <-]. split; [done | lia].
  - intros H. apply bind_Ret_inv in H as (u & v1 & H1 & H).
    assert (_size v1 = _size v + 1) as Hs1.
    { apply push_back_header in H1 as (Hs & _). rewrite Hs.
      unfold size_le_capacity in Hv. simpl in Hlim.
      apply to_size_t_small. lia. }
    simpl in Hlim.
    apply push_back_size_le_capacity in H1;
      [|done|unfold within_limits; lia].
    apply IH in H; [|done|lia]. destruct H as [HJ Hs]. split; [done | lia].
Qed.

Lemma ctor_size_le_capacity :
  0 ≤ StaticCapacity → size_le_capacity VLVector_ctor.
Proof. unfold size_le_capacity. simpl. unfold STARTING_SIZE. lia. Qed.

End Invariant.

Section Blocks.
Context {tp : Template}.

(** ** Blocks and cells *)

Lemma insert_middle (l1 l2 : list T) (y x : T) :
  <[length l1 := x]> (l1 ++ y :: l2) = l1 ++ x :: l2.
Proof. rewrite insert_app_r_alt by lia. by rewrite Nat.sub_diag. Qed.

Lemma valid_spec (v : VLVector) :
  valid v = true ↔
  Z.of_nat (length (_statData v)) = StaticCapacity ∧
  0 ≤ _size v ≤ _capacity v ∧ _capacity v < size_t_modulus ∧
  match _curData v with
  | to_statData => _dynamic v = false ∧ _capacity v ≤ StaticCapacity
  | to_heap c => _dynamic v = true ∧ _capacity v ≤ Z.of_nat (length c)
  | dangling => False
  end.
Proof.
  unfold valid. rewrite !andb_true_iff, Z.eqb_eq, !Z.leb_le, Z.ltb_lt.
  destruct (_curData v);
    rewrite ?andb_true_iff, ?negb_true_iff, ?Z.leb_le;
    intuition (try done; try lia).
Qed.

(** A valid object has an active block with room for [_capacity] cells. *)
Lemma valid_block (v : VLVector) :
  valid v = true →
  ∃ c, block v = Some c ∧ _capacity v ≤ Z.of_nat (length c).
Proof.
  intros H. apply valid_spec in H as (Hn & Hs & Hc & Hp).
  unfold block. destruct (_curData v) as [|c|]; [| |done].
  - exists (_statData v). split; [done | lia].
  - exists c. split; [done | lia].
Qed.

Lemma valid_holds (v : VLVector) :
  valid v = true → ∃ l, holds v l.
Proof.
  intros H. destruct (valid_block v H) as (c & Hb & Hc).
  apply valid_spec in H as (_ & Hs & _).
  exists (take (Z.to_nat (_size v)) c). split.
  - rewrite length_take_le by lia. lia.
  - exists (drop (Z.to_nat (_size v)) c). by rewrite take_drop.
Qed.

Lemma holds_length (v : VLVector) (l : list T) :
  holds v l → _size v = Z.of_nat (length l).
Proof. by intros [H _]. Qed.

Lemma holds_inj (v : VLVector) (l1 l2 : list T) :
  holds v l1 → holds v l2 → l1 = l2.
Proof.
  intros (H1 & r1 & B1) (H2 & r2 & B2).
  rewrite B1 in B2. injection B2 as B2.
  apply app_inj_1 in B2 as [? _]; [done | lia].
Qed.

Lemma peek_block (v : VLVector) (c : list T) (i : nat) :
  block v = Some c → peek v (Z.of_nat i) = c !! i.
Proof. intros H. unfold peek. rewrite H. simpl. apply rd_nat. Qed.

Lemma poke_block (v : VLVector) (c : list T) (i : nat) (x : T) :
  block v = Some c → (i < length c)%nat →
  poke v (Z.of_nat i) x = Some (with_block v (<[i := x]> c)).
Proof.
  unfold block, poke, with_block. intros H Hi.
  destruct (_curData v); simplify_eq; by rewrite wr_nat.
Qed.

Lemma load_block (v : VLVector) (c : list T) (i : nat) (x : T) :
  block v = Some c → c !! i = Some x → load v (Z.of_nat i) = Ret x v.
Proof. intros H Hx. unfold load. by rewrite (peek_block v c), Hx. Qed.

Lemma store_block (v : VLVector) (c : list T) (i : nat) (x : T) :
  block v = Some c → (i < length c)%nat →
  store v (Z.of_nat i) x = Ret tt (with_block v (<[i := x]> c)).
Proof. intros H Hi. unfold store. by rewrite (poke_block v c). Qed.

Lemma load_block_Z (v : VLVector) (c : list T) (i : Z) (x : T) :
  block v = Some c → 0 ≤ i → c !! Z.to_nat i = Some x →
  load v i = Ret x v.
Proof.
  intros H Hi Hx. rewrite <- (Z2Nat.id i) by done. by eapply load_block.
Qed.

Lemma store_block_Z (v : VLVector) (c : list T) (i : Z) (x : T) :
  block v = Some c → 0 ≤ i < Z.of_nat (length c) →
  store v i x = Ret tt (with_block v (<[Z.to_nat i := x]> c)).
Proof.
  intros H Hi. rewrite <- (Z2Nat.id i) at 1 by lia.
  apply store_block; [done | lia].
Qed.

Lemma block_with_block (v : VLVector) (c c' : list T) :
  block v = Some c → block (with_block v c') = Some c'.
Proof.
  unfold block, with_block.
  destruct (_curData v) eqn:E; simpl; rewrite ?E; done.
Qed.

Lemma with_block_with_block (v : VLVector) (c1 c2 : list T) :
  with_block (with_block v c1) c2 = with_block v c2.
Proof.
  unfold with_block. by destruct (_curData v) eqn:E; simpl; rewrite ?E.
Qed.

Lemma with_block_id (v : VLVector) (c : list T) :
  block v = Some c → with_block v c = v.
Proof.
  unfold block, with_block. destruct v as [s d n k p]. simpl.
  destruct p; intros H; simplify_eq; done.
Qed.

Lemma with_block_header (v : VLVector) (c : list T) :
  same_header v (with_block v c).
Proof. unfold with_block. by destruct (_curData v). Qed.

Lemma with_block_size (v : VLVector) (c : list T) :
  _size (with_block v c) = _size v.
Proof. apply with_block_header. Qed.

Lemma set_size_with_block (v : VLVector) (c : list T) (n : Z) :
  set_size (with_block v c) n = with_block (set_size v n) c.
Proof. unfold with_block. simpl. by destruct (_curData v). Qed.

Lemma block_set_size (v : VLVector) (n : Z) : block (set_size v n) = block v.
Proof. done. Qed.

Lemma block_set_capacity (v : VLVector) (n : Z) :
  block (set_capacity v n) = block v.
Proof. done. Qed.

(** Replacing the cells by as many cells keeps the object valid. *)
Lemma valid_with_block (v : VLVector) (c c' : list T) :
  block v = Some c → length c' = length c →
  valid (with_block v c') = valid v.
Proof.
  unfold block, with_block, valid. intros H Hl.
  destruct (_curData v) eqn:E; simplify_eq; simpl; rewrite ?E, ?Hl; done.
Qed.

(** ** Iteration *)

Lemma traverse_spec (c2 c1 c3 : list T) (v : VLVector) (fuel : nat) :
  block v = Some (c1 ++ c2 ++ c3) →
  _size v = Z.of_nat (length c1 + length c2) →
  (length c2 ≤ fuel)%nat →
  traverse fuel (Z.of_nat (length c1)) v = Some c2.
Proof.
  revert c1 fuel. induction c2 as [|x c2 IH]; intros c1 fuel Hb Hs Hf.
  - destruct fuel; simpl; unfold end_; rewrite Hs; simpl;
      rewrite Nat.add_0_r, Z.eqb_refl; done.
  - destruct fuel as [|fuel]; [simpl in Hf; lia|]. simpl.
    change ((x :: c2) ++ c3) with (x :: (c2 ++ c3)) in Hb.
    unfold end_. rewrite Hs. simpl length.
    destruct (Z.eqb_spec (Z.of_nat (length c1))
                (Z.of_nat (length c1 + S (length c2)))) as [E|_]; [lia|].
    rewrite (peek_block v _ _ Hb), list_lookup_middle by done. simpl.
    replace (Z.of_nat (length c1) + 1) with (Z.of_nat (length (c1 ++ [x])))
      by (rewrite length_app; simpl; lia).
    rewrite IH; [done| | |simpl in Hf; lia].
    + by rewrite <- app_assoc.
    + rewrite Hs, length_app. simpl. lia.
Qed.

(** Iterating from [begin()] to [end()] yields the sequence held. *)
Lemma holds_elements (v : VLVector) (l : list T) :
  holds v l → elements v = Some l.
Proof.
  intros (Hs & rest & Hb). unfold elements, begin_.
  apply (traverse_spec l [] rest); [done|simpl; lia|lia].
Qed.

End Blocks.

Section Engine.
Context {tp : Template}.

(** ** Growth and shrink *)

Lemma sane_template_spec :
  sane_template = true →
  0 ≤ StaticCapacity < size_t_modulus ∧ 1 ≤ sizeof_T.
Proof.
  unfold sane_template. rewrite !andb_true_iff, !Z.leb_le, Z.ltb_lt. lia.
Qed.

(** With [room] the growth formula does not wrap around, the new capacity
    has room for one more element and the new block has at least as many
    cells. *)
Lemma grow_facts (s : Z) :
  sane_template = true → 0 ≤ s → room s →
  let cap := times_INCREASE_FACTOR (to_size_t (s + INCREASE_INC)) in
  cap = (s + 1) * 3 / 2 ∧ s + 1 ≤ cap ∧ cap < size_t_modulus ∧
  to_size_t (sizeof_T * cap) = sizeof_T * cap ∧ cap ≤ sizeof_T * cap ∧
  to_size_t (s + 1) = s + 1.
Proof.
  intros Hsane Hs Hroom cap. apply sane_template_spec in Hsane as [HN Hsz].
  unfold room in Hroom. unfold INCREASE_INC in cap.
  assert (3 * (s + 1) < size_t_modulus) as H3 by nia.
  assert (to_size_t (s + 1) = s + 1) as E1 by (apply to_size_t_small; lia).
  assert (cap = (s + 1) * 3 / 2) as Ecap.
  { unfold cap. rewrite E1. apply times_INCREASE_FACTOR_small; lia. }
  assert (s + 1 ≤ cap) as Hge.
  { rewrite Ecap. apply Z.div_le_lower_bound; lia. }
  assert (2 * cap ≤ 3 * (s + 1)) as Hle.
  { rewrite Ecap. pose proof (Z.mul_div_le ((s + 1) * 3) 2). lia. }
  assert (sizeof_T * cap < size_t_modulus) as Hlen by nia.
  repeat split; try done; try nia.
  apply to_size_t_small. nia.
Qed.

Lemma copy_to_temp_spec (c2 c1 c3 t1 t2 t3 : list T) (v : VLVector) :
  block v = Some (c1 ++ c2 ++ c3) →
  length t1 = length c1 → length t2 = length c2 →
  copy_to_temp (length c2) (Z.of_nat (length c1)) v (t1 ++ t2 ++ t3)
    = Some (t1 ++ c2 ++ t3).
Proof.
  revert c1 t1 t2. induction c2 as [|x c2 IH]; intros c1 t1 t2 Hb H1 H2.
  - destruct t2; [done | simpl in H2; lia].
  - destruct t2 as [|y t2]; [simpl in H2; lia|]. simpl in H2 |- *.
    change ((x :: c2) ++ c3) with (x :: (c2 ++ c3)) in Hb.
    rewrite (peek_block v _ _ Hb), list_lookup_middle by done. simpl.
    rewrite <- H1, wr_nat by (rewrite length_app; simpl; lia). simpl.
    rewrite insert_middle, H1.
    replace (Z.of_nat (length c1) + 1) with (Z.of_nat (length (c1 ++ [x])))
      by (rewrite length_app; simpl; lia).
    rewrite (cons_middle x t1), (app_assoc t1 [x]).
    rewrite IH; rewrite ?length_app; simpl; try lia.
    + by rewrite <- app_assoc.
    + by rewrite <- app_assoc.
Qed.

Lemma _increaseCapacity_spec (v : VLVector) (l rest : list T) :
  block v = Some (l ++ rest) → _size v = Z.of_nat (length l) →
  (_dynamic v = true → ∃ c, _curData v = to_heap c) →
  let cap := times_INCREASE_FACTOR (to_size_t (_size v + INCREASE_INC)) in
  let len := Z.to_nat (to_size_t (sizeof_T * cap)) in
  (length l ≤ len)%nat →
  _increaseCapacity v
    = Ret tt (mkVLVector (_statData v) true (_size v) cap
                (to_heap (l ++ replicate (len - length l) T_default))).
Proof.
  intros Hb Hs Hd cap len Hlen. unfold _increaseCapacity. simpl.
  fold cap. unfold new_array. fold len.
  replace len with (length l + (len - length l))%nat at 1 by lia.
  rewrite replicate_add, Hs, Nat2Z.id.
  pose proof (copy_to_temp_spec l [] rest [] (replicate (length l) T_default)
                (replicate (len - length l) T_default)
                (set_capacity v cap)) as Hcopy.
  simpl in Hcopy. change (Z.of_nat 0) with 0 in Hcopy. unfold FIRST_IDX.
  rewrite Hcopy; [|done|done|by rewrite length_replicate].
  destruct (_dynamic v) eqn:Ed.
  - destruct (Hd eq_refl) as [c Hc]. unfold delete_curData. simpl.
    rewrite Hc. simpl. unfold set_dynamic, set_curData. simpl.
    by rewrite Hs.
  - simpl. unfold set_dynamic, set_curData. simpl. by rewrite Hs.
Qed.

Lemma copy_to_statData_spec (c2 c1 c3 s1 s2 s3 : list T) (v : VLVector) :
  _curData v = to_heap (c1 ++ c2 ++ c3) →
  _statData v = s1 ++ s2 ++ s3 →
  length s1 = length c1 → length s2 = length c2 →
  copy_to_statData (length c2) (Z.of_nat (length c1)) v
    = Some (set_statData v (s1 ++ c2 ++ s3)).
Proof.
  revert c1 s1 s2 v. induction c2 as [|x c2 IH];
    intros c1 s1 s2 v Hp Hsd H1 H2.
  - destruct s2; [|simpl in H2; lia]. simpl. f_equal.
    destruct v. simpl in *. unfold set_statData. simpl. by rewrite Hsd.
  - destruct s2 as [|y s2]; [simpl in H2; lia|]. simpl in H2 |- *.
    change ((x :: c2) ++ c3) with (x :: (c2 ++ c3)) in Hp.
    assert (block v = Some (c1 ++ x :: c2 ++ c3)) as Hb
      by (unfold block; by rewrite Hp).
    rewrite (peek_block v _ _ Hb), list_lookup_middle by done. simpl.
    rewrite Hsd.
    rewrite <- H1, wr_nat by (rewrite length_app; simpl; lia). simpl.
    rewrite insert_middle, H1.
    replace (Z.of_nat (length c1) + 1) with (Z.of_nat (length (c1 ++ [x])))
      by (rewrite length_app; simpl; lia).
    rewrite (IH (c1 ++ [x]) (s1 ++ [x]) s2); rewrite ?length_app; simpl;
      try lia.
    + unfold set_statData. simpl. by rewrite <- app_assoc.
    + by rewrite <- app_assoc.
    + by rewrite <- app_assoc.
Qed.

Lemma _decreaseCapacity_spec (v : VLVector) (l rest s1 s2 : list T) :
  _curData v = to_heap (l ++ rest) → _size v = Z.of_nat (length l) →
  _statData v = s1 ++ s2 → length s1 = length l →
  _decreaseCapacity v
    = Ret tt (mkVLVector (l ++ s2) false (_size v) StaticCapacity
                to_statData).
Proof.
  intros Hp Hs Hsd H1. unfold _decreaseCapacity.
  rewrite Hs, Nat2Z.id.
  pose proof (copy_to_statData_spec l [] rest [] s1 s2 v) as Hcopy.
  simpl in Hcopy. change (Z.of_nat 0) with 0 in Hcopy. unfold FIRST_IDX.
  rewrite Hcopy; [|done|done|done|done].
  unfold delete_curData. simpl. rewrite Hp. simpl.
  unfold set_dynamic, set_capacity, set_curData. simpl. by rewrite Hs.
Qed.

End Engine.

Section PushPop.
Context {tp : Template}.

(** ** The sequence operations on valid objects *)

Lemma valid_set_size (v : VLVector) (n : Z) :
  valid v = true → 0 ≤ n ≤ _capacity v → valid (set_size v n) = true.
Proof.
  rewrite !valid_spec. simpl. intros (Hn & Hs & Hc & Hp) Hr.
  repeat split; try done; lia.
Qed.

Lemma holds_block_length (v : VLVector) (l rest : list T) :
  valid v = true → block v = Some (l ++ rest) →
  _capacity v ≤ Z.of_nat (length l + length rest).
Proof.
  intros Hv Hb. destruct (valid_block v Hv) as (c & Hb' & Hc).
  rewrite Hb in Hb'. injection Hb' as <-. rewrite length_app in Hc. lia.
Qed.

(** The prologue of [push_back] and [insert]: afterwards there is a free
    cell, and the elements are the same. *)
Lemma grow_if_full_spec (v : VLVector) (l : list T) :
  sane_template = true → valid v = true → holds v l → room (_size v) →
  ∃ v1, (if _size v =? _capacity v then _increaseCapacity v else Ret tt v)
          = Ret tt v1 ∧
        valid v1 = true ∧ holds v1 l ∧ _size v1 < _capacity v1.
Proof.
  intros Hsane Hv (Hs & rest & Hb) Hroom.
  pose proof Hv as Hv'. apply valid_spec in Hv' as (Hn & Hsz & Hcap & Hp).
  destruct (grow_facts (_size v) Hsane ltac:(lia) Hroom)
    as (Ecap & Hge & Hlt & Elen & Hlen & E1).
  destruct (Z.eqb_spec (_size v) (_capacity v)) as [E|E].
  - set (cap := times_INCREASE_FACTOR (to_size_t (_size v + INCREASE_INC)))
      in *.
    set (len := Z.to_nat (to_size_t (sizeof_T * cap))).
    rewrite (_increaseCapacity_spec v l rest Hb Hs); fold cap; fold len.
    2:{ intros Hd.
        destruct (_curData v); [destruct Hp; congruence|eauto|done]. }
    2:{ lia. }
    eexists. split; [reflexivity|]. split; [|split].
    + apply valid_spec. simpl.
      rewrite length_app, length_replicate. lia.
    + split; [done|]. by eexists.
    + simpl. lia.
  - exists v. split; [done|]. split; [done|]. split; [|lia].
    split; [done|]. by exists rest.
Qed.

Lemma push_back_spec (v : VLVector) (x : T) (l : list T) :
  sane_template = true → valid v = true → holds v l → room (_size v) →
  ∃ v', push_back v x = Ret tt v' ∧ valid v' = true ∧ holds v' (l ++ [x]).
Proof.
  intros Hsane Hv Hl Hroom. unfold push_back.
  destruct (grow_if_full_spec v l Hsane Hv Hl Hroom)
    as (v1 & -> & Hv1 & (Hs & rest & Hb) & Hfree).
  simpl bind.
  pose proof (holds_block_length v1 l rest Hv1 Hb) as Hlen.
  pose proof Hv1 as Hv1'.
  apply valid_spec in Hv1' as (_ & Hsz & Hcap & _).
  destruct rest as [|y rest]; [simpl in Hlen; lia|].
  erewrite store_block_Z; [|exact Hb|rewrite length_app; simpl; lia].
  replace (Z.to_nat (_size v1)) with (length l) by lia.
  simpl. rewrite insert_middle, with_block_size.
  rewrite to_size_t_small by lia.
  eexists. split; [reflexivity|]. split.
  - apply valid_set_size;
      [|destruct (with_block_header v1 (l ++ x :: rest)) as (_ & -> & _);
        lia].
    erewrite valid_with_block; [exact Hv1|exact Hb|].
    by rewrite !length_app.
  - split; simpl.
    + rewrite length_app. simpl. lia.
    + exists rest. rewrite <- app_assoc. simpl.
      rewrite block_set_size. by eapply block_with_block.
Qed.

(** The epilogue of [pop_back] and [erase]. *)
Lemma shrink_if_small_spec (v : VLVector) (l : list T) :
  sane_template = true → valid v = true → holds v l →
  ∃ v', (if (_size v <=? StaticCapacity) && _dynamic v
         then _decreaseCapacity v else Ret tt v) = Ret tt v' ∧
        valid v' = true ∧ holds v' l.
Proof.
  intros Hsane Hv (Hs & rest & Hb).
  pose proof Hv as Hv'. apply valid_spec in Hv' as (Hn & Hsz & Hcap & Hp).
  apply sane_template_spec in Hsane as [HN _].
  destruct (Z.leb_spec (_size v) StaticCapacity) as [Hle|Hgt]; simpl.
  - destruct (_dynamic v) eqn:Ed.
    + unfold block in Hb.
      destruct (_curData v) as [|c|] eqn:Ec;
        [destruct Hp; congruence| |done].
      injection Hb as ->.
      rewrite (_decreaseCapacity_spec v l rest
                 (take (length l) (_statData v))
                 (drop (length l) (_statData v)) Ec Hs);
        [|by rewrite take_drop|rewrite length_take_le; lia].
      eexists. split; [reflexivity|]. split.
      * apply valid_spec. simpl.
        rewrite length_app, length_drop. lia.
      * split; [done|]. by eexists.
    + exists v. split; [done|]. split; [done|]. split; [done|].
      by exists rest.
  - exists v. split; [done|]. split; [done|]. split; [done|].
    by exists rest.
Qed.

Lemma pop_back_spec (v : VLVector) (l : list T) (x : T) :
  sane_template = true → valid v = true → holds v (l ++ [x]) →
  ∃ v', pop_back v = Ret tt v' ∧ valid v' = true ∧ holds v' l.
Proof.
  intros Hsane Hv (Hs & rest & Hb). unfold pop_back.
  pose proof Hv as Hv'. apply valid_spec in Hv' as (Hn & Hsz & Hcap & Hp).
  rewrite length_app in Hs. simpl in Hs.
  rewrite to_size_t_small by lia.
  apply (shrink_if_small_spec (set_size v (_size v - 1)) l Hsane).
  - apply valid_set_size; [done | lia].
  - split; [simpl; lia|]. exists ([x] ++ rest).
    rewrite block_set_size, Hb. by rewrite <- app_assoc.
Qed.

End PushPop.

Section Insertion.
Context {tp : Template}.

(** ** Single-element [insert] *)

Lemma load_negative (v : VLVector) (i : Z) : i < 0 → load v i = Undefined.
Proof.
  intros Hi. unfold load, peek. destruct (block v); [|done]. simpl.
  unfold rd. destruct (decide (0 ≤ i)); [lia | done].
Qed.

(** The fuel given to the shifting loop is enough: the loop ends, by
    meeting [inPlc] or by a read below [data()], within [toCopy + 1] tests,
    so more fuel gives the same result. *)
Lemma insert_shift_fuel (n : nat) :
  ∀ (fuel : nat) (toCopy copyTo inPlc : Z) (v : VLVector),
  toCopy = Z.of_nat n → (n < fuel)%nat →
  insert_shift fuel toCopy copyTo inPlc v
    = insert_shift (S n) toCopy copyTo inPlc v.
Proof.
  assert (∀ f toCopy copyTo inPlc v,
            insert_shift (S f) toCopy copyTo inPlc v
            = if toCopy =? inPlc then Ret copyTo v
              else do (x, v) <- load v (toCopy - 1);
                   do (_, v) <- store v copyTo x;
                   insert_shift f (toCopy - 1) (copyTo - 1) inPlc v)
    as Hstep by done.
  induction n as [|n IH]; intros fuel toCopy copyTo inPlc v Hn Hf;
    (destruct fuel as [|fuel]; [lia|]); rewrite !Hstep;
    (destruct (toCopy =? inPlc); [done|]).
  - by rewrite load_negative by lia.
  - destruct (load v (toCopy - 1)) as [x v1| |]; [|done|done].
    rewrite !bind_Ret.
    destruct (store v1 copyTo x) as [u v2| |]; [|done|done].
    rewrite !bind_Ret. apply IH; lia.
Qed.

(** The shifting loop moves the cells [c2] one place to the right. *)
Lemma insert_shift_spec (c2 : list T) :
  ∀ (c1 c3 : list T) (y : T) (v : VLVector) (fuel : nat),
  block v = Some (c1 ++ c2 ++ y :: c3) → (length c2 < fuel)%nat →
  ∃ h, insert_shift fuel (Z.of_nat (length c1 + length c2))
         (Z.of_nat (length c1 + length c2)) (Z.of_nat (length c1)) v
       = Ret (Z.of_nat (length c1)) (with_block v (c1 ++ h :: c2 ++ c3)).
Proof.
  induction c2 as [|z c2 IH] using rev_ind; intros c1 c3 y v fuel Hb Hf.
  - destruct fuel as [|fuel]; [lia|]. simpl.
    rewrite Nat.add_0_r, Z.eqb_refl. exists y. simpl in Hb |- *.
    by rewrite (with_block_id v _ Hb).
  - destruct fuel as [|fuel]; [lia|]. simpl.
    rewrite length_app in Hf |- *. simpl in Hf |- *.
    destruct (Z.eqb_spec (Z.of_nat (length c1 + (length c2 + 1)))
                (Z.of_nat (length c1))) as [E|_]; [lia|].
    replace (Z.of_nat (length c1 + (length c2 + 1)) - 1)
      with (Z.of_nat (length (c1 ++ c2))) by (rewrite length_app; lia).
    assert (block v = Some ((c1 ++ c2) ++ z :: y :: c3)) as Hb1.
    { rewrite Hb. f_equal. by rewrite <- !app_assoc. }
    rewrite (load_block v _ _ z Hb1) by (by apply list_lookup_middle).
    simpl.
    assert (block v = Some (((c1 ++ c2) ++ [z]) ++ y :: c3)) as Hb2.
    { rewrite Hb1. f_equal. by rewrite <- !app_assoc. }
    replace (Z.of_nat (length c1 + (length c2 + 1)))
      with (Z.of_nat (length ((c1 ++ c2) ++ [z])))
      by (rewrite !length_app; simpl; lia).
    rewrite (store_block v _ _ z Hb2)
      by (rewrite !length_app; simpl; lia).
    simpl. rewrite insert_middle, length_app.
    destruct (IH c1 (z :: c3) z
                (with_block v (((c1 ++ c2) ++ [z]) ++ z :: c3)) fuel)
      as [h Hh].
    + erewrite block_with_block by exact Hb. f_equal.
      by rewrite <- !app_assoc.
    + lia.
    + exists h. rewrite Hh. f_equal.
      rewrite with_block_with_block. f_equal.
      by rewrite <- !app_assoc.
Qed.

Lemma insert_spec (v : VLVector) (pos : Z) (x : T) (l : list T) :
  sane_template = true → valid v = true → holds v l → room (_size v) →
  0 ≤ pos ≤ _size v →
  ∃ v', insert v pos x = Ret pos v' ∧ valid v' = true ∧
        holds v' (take (Z.to_nat pos) l ++ x :: drop (Z.to_nat pos) l).
Proof.
  intros Hsane Hv Hl Hroom Hpos. unfold insert, begin_, end_.
  pose proof Hv as Hv0. apply valid_spec in Hv0 as (_ & Hsz0 & Hcap0 & _).
  rewrite Z.sub_0_r, (to_size_t_small pos) by lia.
  destruct (grow_if_full_spec v l Hsane Hv Hl Hroom)
    as (v1 & -> & Hv1 & (Hs & rest & Hb) & Hfree).
  rewrite bind_Ret.
  pose proof (holds_block_length v1 l rest Hv1 Hb) as Hlen.
  pose proof Hv1 as Hv1'.
  apply valid_spec in Hv1' as (_ & Hsz & Hcap & _).
  assert (_size v1 = _size v) as Hsame.
  { destruct Hl as [Hl _]. lia. }
  destruct rest as [|y rest]; [simpl in Hlen; lia|].
  set (c1 := take (Z.to_nat pos) l). set (c2 := drop (Z.to_nat pos) l).
  assert (l = c1 ++ c2) as El by (symmetry; apply take_drop).
  assert (length c1 = Z.to_nat pos) as Hc1
    by (unfold c1; rewrite length_take_le; lia).
  assert (length l = (length c1 + length c2)%nat) as Hll
    by (rewrite El at 1; apply length_app).
  assert (block v1 = Some (c1 ++ c2 ++ y :: rest)) as Hb1.
  { rewrite Hb, El. by rewrite <- app_assoc. }
  destruct (insert_shift_spec c2 c1 rest y v1 (S (Z.to_nat (_size v1))) Hb1)
    as [h Hh]; [lia|].
  replace (Z.of_nat (length c1 + length c2)) with (_size v1) in Hh by lia.
  replace (Z.of_nat (length c1)) with pos in Hh by lia.
  rewrite Hh, bind_Ret.
  erewrite store_block_Z;
    [|by eapply block_with_block|rewrite length_app; simpl; lia].
  rewrite bind_Ret, <- Hc1, insert_middle, with_block_with_block,
    with_block_size.
  rewrite to_size_t_small by lia.
  eexists. split; [reflexivity|]. split.
  - apply valid_set_size;
      [|destruct (with_block_header v1 (c1 ++ x :: c2 ++ rest))
          as (_ & -> & _); lia].
    erewrite valid_with_block; [exact Hv1|exact Hb1|].
    rewrite !length_app. simpl. rewrite !length_app. simpl. lia.
  - split; simpl.
    + rewrite length_app. simpl. lia.
    + exists rest. rewrite block_set_size.
      erewrite block_with_block by exact Hb1. f_equal.
      rewrite <- app_assoc. done.
Qed.

End Insertion.

Section Removal.
Context {tp : Template}.

(** ** Single-element [erase] *)

Lemma advance_spec (fuel : nat) (insTo iter : Z) :
  iter - insTo = Z.of_nat fuel → advance fuel insTo iter = Some iter.
Proof.
  revert insTo. induction fuel as [|fuel IH]; intros insTo H; simpl.
  - destruct (Z.eqb_spec insTo iter) as [->|E]; [done | lia].
  - destruct (Z.eqb_spec insTo iter) as [E|_]; [lia|]. apply IH. lia.
Qed.

(** The copy loop moves the cells [c2] one place to the left. *)
Lemma copy_loop_spec (c2 : list T) :
  ∀ (c1 c3 : list T) (z : T) (v : VLVector),
  block v = Some (c1 ++ z :: c2 ++ c3) →
  ∃ h, copy_loop (length c2) (Z.of_nat (length c1) + 1)
         (Z.of_nat (length c1)) v
       = Ret tt (with_block v (c1 ++ c2 ++ h :: c3)).
Proof.
  induction c2 as [|w c2 IH]; intros c1 c3 z v Hb; simpl in Hb |- *.
  - exists z. by rewrite (with_block_id v _ Hb).
  - assert (block v = Some ((c1 ++ [z]) ++ w :: c2 ++ c3)) as Hb1.
    { rewrite Hb. by rewrite <- app_assoc. }
    replace (Z.of_nat (length c1) + 1) with (Z.of_nat (length (c1 ++ [z])))
      by (rewrite length_app; simpl; lia).
    rewrite (load_block v _ _ w Hb1) by (by apply list_lookup_middle).
    rewrite bind_Ret.
    rewrite (store_block v _ _ w Hb) by (rewrite length_app; simpl; lia).
    rewrite bind_Ret, insert_middle.
    destruct (IH (c1 ++ [w]) c3 w (with_block v (c1 ++ w :: w :: c2 ++ c3)))
      as [h Hh].
    { erewrite block_with_block by exact Hb. by rewrite <- app_assoc. }
    exists h. rewrite !length_app in Hh |- *. simpl in Hh |- *.
    rewrite !Nat2Z.inj_add in Hh |- *. simpl in Hh |- *.
    rewrite Hh, with_block_with_block. by rewrite <- app_assoc.
Qed.

Lemma erase_spec (v : VLVector) (pos : Z) (l : list T) :
  sane_template = true → valid v = true → holds v l →
  0 ≤ pos < _size v →
  ∃ v', erase v pos = Ret pos v' ∧ valid v' = true ∧
        holds v' (take (Z.to_nat pos) l ++ drop (S (Z.to_nat pos)) l).
Proof.
  intros Hsane Hv (Hs & rest & Hb) Hpos.
  unfold erase, begin_, end_, NEXT_ELEM.
  rewrite advance_spec by lia.
  pose proof Hv as Hv0. apply valid_spec in Hv0 as (_ & Hsz & Hcap & _).
  set (c1 := take (Z.to_nat pos) l).
  set (c2 := drop (S (Z.to_nat pos)) l).
  assert (length c1 = Z.to_nat pos) as Hc1
    by (unfold c1; rewrite length_take_le; lia).
  destruct (l !! Z.to_nat pos) as [z|] eqn:Ez;
    [|apply lookup_ge_None in Ez; lia].
  assert (l = c1 ++ z :: c2) as El
    by (symmetry; by apply take_drop_middle).
  assert (length l = (length c1 + S (length c2))%nat) as Hll
    by (rewrite El at 1; rewrite length_app; done).
  assert (block v = Some (c1 ++ z :: c2 ++ rest)) as Hb1.
  { rewrite Hb, El. by rewrite <- app_assoc. }
  destruct (copy_loop_spec c2 c1 rest z v Hb1) as [h Hh].
  unfold std_copy.
  destruct (Z.ltb_spec (_size v) (pos + 1)) as [E|_]; [lia|].
  replace (Z.to_nat (_size v - (pos + 1))) with (length c2) by lia.
  replace (Z.of_nat (length c1)) with pos in Hh by lia.
  rewrite Hh, bind_Ret.
  rewrite with_block_size, (to_size_t_small (_size v - 1)) by lia.
  set (v2 := set_size (with_block v (c1 ++ c2 ++ h :: rest)) (_size v - 1)).
  destruct (shrink_if_small_spec v2 (c1 ++ c2) Hsane) as (v' & Hv' & Hok).
  - apply valid_set_size;
      [|destruct (with_block_header v (c1 ++ c2 ++ h :: rest))
          as (_ & -> & _); lia].
    erewrite valid_with_block; [exact Hv|exact Hb1|].
    rewrite !length_app. simpl. rewrite !length_app. simpl. lia.
  - split; [simpl; rewrite length_app; lia|]. exists (h :: rest).
    unfold v2. rewrite block_set_size.
    erewrite block_with_block by exact Hb1. by rewrite <- app_assoc.
  - rewrite Hv', bind_Ret. by exists v'.
Qed.

(** ** Checked access *)

Lemma at_spec (v : VLVector) (idx : Z) (l : list T) :
  valid v = true → holds v l → 0 ≤ idx →
  (at_ v idx = Throw out_of_range v ↔ _size v ≤ idx) ∧
  (idx < _size v →
   ∃ x, l !! Z.to_nat idx = Some x ∧ at_ v idx = Ret x v).
Proof.
  intros Hv (Hs & rest & Hb) Hidx. unfold at_, subscript.
  destruct (Z.leb_spec (_size v) idx) as [Hle|Hlt].
  - split; [done | lia].
  - assert (is_Some (l !! Z.to_nat idx)) as [x Hx]
      by (apply lookup_lt_is_Some; lia).
    rewrite (load_block_Z v (l ++ rest) idx x Hb Hidx)
      by (by apply lookup_app_l_Some).
    split; [split; [done | lia]|]. intros _. by exists x.
Qed.

End Removal.

Section PushSequences.
Context {tp : Template}.

(** ** Sequences of [push_back] *)

Lemma room_mono (m n : Z) :
  sane_template = true → 0 ≤ m ≤ n → room n → room m.
Proof.
  intros Hsane Hmn. apply sane_template_spec in Hsane as [_ Hsz].
  unfold room. nia.
Qed.

Lemma ctor_valid : sane_template = true → valid VLVector_ctor = true.
Proof.
  intros Hsane. apply sane_template_spec in Hsane as [HN _].
  apply valid_spec. simpl. unfold new_array, STARTING_SIZE.
  rewrite length_replicate. lia.
Qed.

Lemma ctor_tight : sane_template = true → tight VLVector_ctor.
Proof.
  intros Hsane. apply sane_template_spec in Hsane as [HN _].
  unfold tight. simpl. unfold STARTING_SIZE. split; [done|].
  split; [done | lia].
Qed.

Lemma ctor_holds : holds VLVector_ctor [].
Proof. split; [done|]. by eexists. Qed.

Lemma push_back_tight (v : VLVector) (x : T) (a : unit) (v' : VLVector) :
  valid v = true → tight v → _size v + 1 < size_t_modulus →
  push_back v x = Ret a v' → tight v'.
Proof.
  intros Hv [Ht1 Ht2] Hlim H. apply valid_spec in Hv as (_ & Hsz & _ & _).
  apply push_back_header in H as (Hs & Hc).
  rewrite to_size_t_small in Hs by lia.
  unfold tight. rewrite Hs.
  destruct (Z.eqb_spec (_size v) (_capacity v)) as [E|E];
    destruct Hc as [Hc Hd]; rewrite Hc, Hd.
  - split; [done|]. split; [intros _|done].
    destruct (_dynamic v).
    + assert (StaticCapacity < _size v) by (by apply Ht2). lia.
    + specialize (Ht1 eq_refl). lia.
  - split; [done|]. destruct (_dynamic v).
    + split; [intros _|done].
      assert (StaticCapacity < _size v) by (by apply Ht2). lia.
    + split; [done|]. intros Hlt. specialize (Ht1 eq_refl). lia.
Qed.

Lemma push_all_spec (xs : list T) :
  ∀ (v : VLVector) (l : list T),
  sane_template = true → valid v = true → tight v → holds v l →
  room (_size v + Z.of_nat (length xs)) →
  ∃ v', push_all xs v = Ret tt v' ∧ valid v' = true ∧ tight v' ∧
        holds v' (l ++ xs).
Proof.
  induction xs as [|x xs IH]; intros v l Hsane Hv Ht Hl Hroom; simpl.
  - exists v. by rewrite app_nil_r.
  - pose proof Hv as Hv0. apply valid_spec in Hv0 as (_ & Hsz & Hcap & _).
    simpl length in Hroom. rewrite Nat2Z.inj_succ in Hroom.
    assert (_size v + 1 < size_t_modulus) as Hlim.
    { pose proof (sane_template_spec Hsane) as [_ Hone].
      unfold room in Hroom. nia. }
    destruct (push_back_spec v x l Hsane Hv Hl) as (v1 & H1 & Hv1 & Hl1).
    { eapply room_mono; [done| |exact Hroom]. lia. }
    rewrite H1, bind_Ret.
    pose proof (holds_length _ _ Hl) as Hs.
    pose proof (holds_length _ _ Hl1) as Hs1.
    rewrite length_app in Hs1. simpl in Hs1.
    destruct (IH v1 (l ++ [x]) Hsane Hv1) as (v' & H' & Hv' & Ht' & Hl').
    + eapply push_back_tight; [exact Hv|exact Ht|exact Hlim|exact H1].
    + done.
    + eapply room_mono; [done| |exact Hroom]. lia.
    + exists v'. rewrite <- app_assoc in Hl'. done.
Qed.

(** Removing the element just inserted gives the list back. *)
Lemma delete_inserted (l : list T) (n : nat) (x : T) :
  (n ≤ length l)%nat →
  take n (take n l ++ x :: drop n l)
    ++ drop (S n) (take n l ++ x :: drop n l) = l.
Proof.
  intros Hn. rewrite take_app_length' by (rewrite length_take_le; lia).
  rewrite cons_middle, app_assoc, drop_app_length'
    by (rewrite length_app, length_take_le; simpl; lia).
  apply take_drop.
Qed.

End PushSequences.

Section RangeInsertion.
Context {tp : Template}.

(** ** Range [insert] *)

(** The loop that saves the cells [c2] from [curPlc] on into [after]. *)
Lemma save_after_spec (c2 : list T) :
  ∀ (c1 c3 : list T) (v after : VLVector) (la : list T),
  block v = Some (c1 ++ c2 ++ c3) →
  sane_template = true → valid after = true → holds after la →
  room (_size after + Z.of_nat (length c2)) →
  ∃ after', save_after (length c2) (Z.of_nat (length c1)) v after
              = Ret tt after' ∧
            valid after' = true ∧ holds after' (la ++ c2).
Proof.
  induction c2 as [|x c2 IH]; intros c1 c3 v after la Hb Hsane Hv Hl Hroom;
    simpl in Hb |- *.
  - exists after. by rewrite app_nil_r.
  - rewrite (peek_block v _ _ Hb), list_lookup_middle by done.
    pose proof Hv as Hv0. apply valid_spec in Hv0 as (_ & Hsz & _ & _).
    simpl length in Hroom. rewrite Nat2Z.inj_succ in Hroom.
    destruct (push_back_spec after x la Hsane Hv Hl) as (a1 & H1 & Hv1 & Hl1).
    { eapply room_mono; [done| |exact Hroom]. lia. }
    rewrite H1, bind_Ret.
    pose proof (holds_length _ _ Hl) as Hs.
    pose proof (holds_length _ _ Hl1) as Hs1.
    rewrite length_app in Hs1. simpl in Hs1.
    replace (Z.of_nat (length c1) + 1) with (Z.of_nat (length (c1 ++ [x])))
      by (rewrite length_app; simpl; lia).
    destruct (IH (c1 ++ [x]) c3 v a1 (la ++ [x])) as (a' & H' & Hv' & Hl');
      try done.
    + by rewrite <- app_assoc.
    + eapply room_mono; [done| |exact Hroom]. lia.
    + exists a'. by rewrite <- app_assoc in Hl'.
Qed.

(** Copying [xs] into the vector overwrites as many cells. *)
Lemma copy_in_spec (xs : list T) :
  ∀ (c1 old c3 : list T) (v : VLVector),
  block v = Some (c1 ++ old ++ c3) → length old = length xs →
  copy_in xs (Z.of_nat (length c1)) v
    = Ret tt (with_block v (c1 ++ xs ++ c3)).
Proof.
  induction xs as [|x xs IH]; intros c1 old c3 v Hb Hlen; simpl.
  - destruct old; [|done]. simpl in Hb. by rewrite (with_block_id v _ Hb).
  - destruct old as [|y old]; [done|]. simpl in Hb, Hlen.
    rewrite (store_block v _ _ x Hb) by (rewrite length_app; simpl; lia).
    rewrite bind_Ret, insert_middle.
    replace (Z.of_nat (length c1) + 1) with (Z.of_nat (length (c1 ++ [x])))
      by (rewrite length_app; simpl; lia).
    rewrite (IH (c1 ++ [x]) old c3).
    + rewrite with_block_with_block. by rewrite <- app_assoc.
    + erewrite block_with_block by exact Hb. by rewrite <- app_assoc.
    + lia.
Qed.

(** The growth step of the range [insert], taken after [_size] was
    increased by the length of the range: it is defined when the active
    block has a cell for each of the [_size] elements counted, and then the
    first [_size] cells are kept. *)
Lemma grow_for_range_spec (v : VLVector) (l junk rest : list T) (n : Z) :
  sane_template = true → valid v = true →
  block v = Some (l ++ junk ++ rest) →
  _size v = Z.of_nat (length l) →
  n = Z.of_nat (length l + length junk) →
  room n →
  ∃ v2 tail,
    (if _size (set_size v n) >? _capacity (set_size v n)
     then _increaseCapacity (set_size v n) else Ret tt (set_size v n))
      = Ret tt v2 ∧
    block v2 = Some (l ++ junk ++ tail) ∧ valid v2 = true ∧ _size v2 = n.
Proof.
  intros Hsane Hv Hb Hs Hn Hroom.
  pose proof Hv as Hv0. apply valid_spec in Hv0 as (HN & Hsz & Hcap & Hp).
  simpl _size. simpl _capacity.
  destruct (Z.gtb_spec n (_capacity v)) as [Hgt|Hle].
  - destruct (grow_facts n Hsane ltac:(lia) Hroom)
      as (Ecap & Hge & Hlt & Elen & Hlen & E1).
    set (cap := times_INCREASE_FACTOR (to_size_t (n + INCREASE_INC))) in *.
    set (len := Z.to_nat (to_size_t (sizeof_T * cap))).
    rewrite (_increaseCapacity_spec (set_size v n) (l ++ junk) rest);
      simpl _size; fold cap; fold len.
    + eexists _, _. split; [reflexivity|]. split.
      * simpl. by rewrite <- app_assoc.
      * split; [|done]. apply valid_spec. simpl.
        rewrite length_app, length_replicate, length_app. lia.
    + rewrite block_set_size, Hb. by rewrite <- app_assoc.
    + rewrite length_app. lia.
    + simpl. intros Hd.
      destruct (_curData v); [destruct Hp; congruence|eauto|done].
    + rewrite length_app. lia.
  - exists (set_size v n), rest. split; [done|]. split; [done|].
    split; [|done]. apply valid_set_size; [done | lia].
Qed.

(** The range [insert] is defined when the active block has a cell for each
    element of the vector and of the range, and then inserts the range at
    the position. *)
Lemma insert_range_spec (v : VLVector) (pos : Z) (rng l c : list T) :
  sane_template = true → valid v = true → holds v l →
  block v = Some c →
  _size v + Z.of_nat (length rng) ≤ Z.of_nat (length c) →
  room (_size v + Z.of_nat (length rng)) →
  0 ≤ pos ≤ _size v →
  ∃ v', insert_range v pos rng = Ret pos v' ∧ valid v' = true ∧
        holds v' (take (Z.to_nat pos) l ++ rng ++ drop (Z.to_nat pos) l).
Proof.
  intros Hsane Hv (Hs & rest & Hb) Hc Hcells Hroom Hpos.
  rewrite Hb in Hc. injection Hc as <-. rewrite length_app in Hcells.
  pose proof Hv as Hv0. apply valid_spec in Hv0 as (HN & Hsz & Hcap & Hp).
  pose proof (sane_template_spec Hsane) as [_ Hone].
  assert (_size v + Z.of_nat (length rng) < size_t_modulus) as Hlim
    by (unfold room in Hroom; nia).
  set (c1 := take (Z.to_nat pos) l). set (c2 := drop (Z.to_nat pos) l).
  set (junk := take (length rng) rest).
  set (tail0 := drop (length rng) rest).
  assert (l = c1 ++ c2) as El by (symmetry; apply take_drop).
  assert (rest = junk ++ tail0) as Er by (symmetry; apply take_drop).
  assert (length c1 = Z.to_nat pos) as Hc1
    by (unfold c1; rewrite length_take_le; lia).
  assert (length junk = length rng) as Hj
    by (unfold junk; rewrite length_take_le; lia).
  assert (length l = (length c1 + length c2)%nat) as Hll
    by (rewrite El at 1; apply length_app).
  unfold insert_range, begin_, end_.
  destruct (Z.ltb_spec (_size v) pos) as [E|_]; [lia|].
  rewrite Z.sub_0_r, Z.add_0_l, (to_size_t_small pos) by lia.
  destruct (save_after_spec c2 c1 rest v VLVector_ctor [])
    as (after & Hsave & _ & Hla); try done.
  { rewrite Hb, El. by rewrite <- app_assoc. }
  { by apply ctor_valid. }
  { apply ctor_holds. }
  { eapply room_mono; [done| |exact Hroom]. simpl. unfold STARTING_SIZE. lia. }
  replace (Z.to_nat (_size v - pos)) with (length c2) by lia.
  replace (Z.of_nat (length c1)) with pos in Hsave by lia.
  rewrite Hsave. simpl in Hla. rewrite (holds_elements _ _ Hla).
  rewrite (to_size_t_small (_ + _)) by lia.
  destruct (grow_for_range_spec v l junk tail0
              (_size v + Z.of_nat (length rng)) Hsane Hv)
    as (v2 & tail & Hgrow & Hb2 & Hv2 & Hs2); try done.
  { by rewrite Hb, Er. }
  { lia. }
  rewrite Hgrow, bind_Ret.
  set (old1 := take (length rng) (c2 ++ junk)).
  set (old2 := drop (length rng) (c2 ++ junk)).
  assert (c2 ++ junk = old1 ++ old2) as Eo by (symmetry; apply take_drop).
  assert (length old1 = length rng) as Ho1
    by (unfold old1; rewrite length_take_le; [done|];
        rewrite length_app; lia).
  assert (length old2 = length c2) as Ho2.
  { unfold old2. rewrite length_drop, length_app. lia. }
  assert (block v2 = Some (c1 ++ old1 ++ old2 ++ tail)) as Hb2'.
  { rewrite Hb2, El. rewrite <- !app_assoc. f_equal. f_equal.
    rewrite (app_assoc c2), Eo. by rewrite <- app_assoc. }
  pose proof (copy_in_spec rng c1 old1 (old2 ++ tail) v2 Hb2' Ho1) as Hcp1.
  replace (Z.of_nat (length c1)) with pos in Hcp1 by lia.
  rewrite Hcp1, bind_Ret.
  pose proof (copy_in_spec c2 (c1 ++ rng) old2 tail
                (with_block v2 (c1 ++ rng ++ old2 ++ tail))) as Hcp2.
  replace (Z.of_nat (length (c1 ++ rng)))
    with (pos + Z.of_nat (length rng)) in Hcp2
    by (rewrite length_app; lia).
  rewrite Hcp2;
    [|erewrite block_with_block by exact Hb2'; by rewrite <- app_assoc
     |done].
  rewrite bind_Ret, with_block_with_block.
  eexists. split; [reflexivity|]. split.
  - erewrite valid_with_block; [exact Hv2|exact Hb2'|].
    rewrite !length_app. lia.
  - split.
    + rewrite with_block_size, Hs2, !length_app. lia.
    + exists tail. erewrite block_with_block by exact Hb2'.
      by rewrite <- !app_assoc.
Qed.

(** Single-element inserts of a range, one after the other. *)
Lemma insert_each_spec (xs : list T) :
  ∀ (v : VLVector) (pos : Z) (l : list T),
  sane_template = true → valid v = true → holds v l →
  room (_size v + Z.of_nat (length xs)) →
  0 ≤ pos ≤ _size v →
  ∃ v', insert_each xs pos v = Ret pos v' ∧ valid v' = true ∧
        holds v' (take (Z.to_nat pos) l ++ xs ++ drop (Z.to_nat pos) l).
Proof.
  induction xs as [|x xs IH]; intros v pos l Hsane Hv Hl Hroom Hpos; simpl.
  - exists v. by rewrite take_drop.
  - pose proof Hv as Hv0. apply valid_spec in Hv0 as (_ & Hsz & _ & _).
    simpl length in Hroom. rewrite Nat2Z.inj_succ in Hroom.
    pose proof (holds_length _ _ Hl) as Hs.
    destruct (insert_spec v pos x l Hsane Hv Hl) as (v1 & H1 & Hv1 & Hl1);
      [eapply room_mono; [done| |exact Hroom]; lia|done|].
    rewrite H1, bind_Ret.
    pose proof (holds_length _ _ Hl1) as Hs1.
    rewrite length_app in Hs1. simpl in Hs1.
    rewrite length_take_le, length_drop in Hs1 by lia.
    destruct (IH v1 (pos + 1) _ Hsane Hv1 Hl1) as (v' & H' & Hv' & Hl');
      [eapply room_mono; [done| |exact Hroom]; lia|lia|].
    rewrite H', bind_Ret. exists v'. split; [done|]. split; [done|].
    replace (Z.to_nat (pos + 1)) with (S (Z.to_nat pos)) in Hl' by lia.
    rewrite cons_middle in Hl'.
    rewrite (app_assoc (take (Z.to_nat pos) l) [x]) in Hl'.
    rewrite take_app_length', drop_app_length' in Hl'
      by (rewrite length_app, length_take_le; simpl; lia).
    by rewrite <- app_assoc in Hl'.
Qed.

(** Where the range [insert] is defined it leaves the elements that the
    single-element inserts leave, and returns the same position. *)
Lemma insert_range_agrees (v : VLVector) (pos : Z) (rng c : list T) :
  sane_template = true → valid v = true →
  block v = Some c →
  _size v + Z.of_nat (length rng) ≤ Z.of_nat (length c) →
  room (_size v + Z.of_nat (length rng)) →
  0 ≤ pos ≤ _size v →
  ∃ v1 v2 l,
    insert_range v pos rng = Ret pos v1 ∧
    insert_each rng pos v = Ret pos v2 ∧
    elements v1 = Some l ∧ elements v2 = Some l.
Proof.
  intros Hsane Hv Hc Hcells Hroom Hpos.
  destruct (valid_holds v Hv) as [l Hl].
  destruct (insert_range_spec v pos rng l c) as (v1 & H1 & _ & Hl1);
    try done.
  destruct (insert_each_spec rng v pos l) as (v2 & H2 & _ & Hl2); try done.
  exists v1, v2, (take (Z.to_nat pos) l ++ rng ++ drop (Z.to_nat pos) l).
  split; [done|]. split; [done|]. split; by apply holds_elements.
Qed.

End RangeInsertion.

Section Assignment.
Context {tp : Template}.

(** ** Assignment *)

(** Assigning to an empty static object copies the elements of the source:
    this is the case of the copy constructor. *)
Lemma assign_to_empty_spec (v rhs : VLVector) (l : list T) :
  sane_template = true →
  valid v = true → _dynamic v = false → _size v = 0 →
  valid rhs = true → holds rhs l →
  room (_size rhs) → _capacity rhs * sizeof_T < size_t_modulus →
  ∃ v', assign v (other_object rhs) = Ret tt v' ∧ valid v' = true ∧
        holds v' l.
Proof.
  intros Hsane Hv Hd Hs0 Hr Hl Hroom Hno.
  pose proof (sane_template_spec Hsane) as [HN Hone].
  pose proof Hv as Hv0. apply valid_spec in Hv0 as (Hn & Hsz & Hcap & Hp).
  pose proof Hr as Hr0. apply valid_spec in Hr0 as (_ & Hrsz & Hrcap & _).
  pose proof (holds_length _ _ Hl) as Hlen.
  unfold assign, capacity, begin_. rewrite Hd, bind_Ret.
  rewrite (holds_elements _ _ Hl).
  set (v1 := if _capacity (set_capacity v (_capacity rhs)) >? StaticCapacity
             then _ else _).
  assert (∃ c, valid v1 = true ∧ block v1 = Some c ∧ _size v1 = 0 ∧
               _capacity rhs ≤ Z.of_nat (length c))
    as (c & Hv1 & Hb1 & Hs1 & Hc).
  { unfold v1. simpl _capacity.
    destruct (Z.gtb_spec (_capacity rhs) StaticCapacity) as [Hgt|Hle].
    - eexists. split; [|split; [reflexivity|]].
      + apply valid_spec. simpl. unfold new_array.
        rewrite length_replicate, to_size_t_small by nia.
        rewrite Hs0. repeat split; try lia. nia.
      + simpl. unfold new_array.
        rewrite length_replicate, to_size_t_small by nia.
        split; [done | nia].
    - destruct (_curData v) eqn:Ec; [|destruct Hp; congruence|done].
      exists (_statData v). split; [|split].
      + apply valid_spec. simpl. rewrite Ec, Hs0.
        repeat split; try lia; done.
      + unfold block. simpl. by rewrite Ec.
      + simpl. split; [done | lia]. }
  destruct (insert_range_spec v1 0 l [] c Hsane Hv1) as (v' & H' & Hv' & Hl');
    try done.
  - split; [done|]. exists c. done.
  - lia.
  - rewrite Hs1. eapply room_mono; [done| |exact Hroom]. lia.
  - lia.
  - rewrite H', bind_Ret. exists v'. split; [done|]. split; [done|].
    simpl in Hl'. by rewrite app_nil_r in Hl'.
Qed.

Lemma VLVector_copy_spec (toCopy : VLVector) (l : list T) :
  sane_template = true → valid toCopy = true → holds toCopy l →
  room (_size toCopy) → _capacity toCopy * sizeof_T < size_t_modulus →
  ∃ v', VLVector_copy toCopy = Ret tt v' ∧ valid v' = true ∧ holds v' l.
Proof.
  intros Hsane Hr Hl Hroom Hno. unfold VLVector_copy.
  by apply assign_to_empty_spec; [|apply ctor_valid| | | | | |].
Qed.

End Assignment.

Section RangeRemoval.
Context {tp : Template}.

(** ** Range [erase] *)

(** The copy loop moves the cells [c2] over the cells [gap] before them. *)
Lemma copy_loop_shift_spec (c2 : list T) :
  ∀ (c1 gap c3 : list T) (v : VLVector),
  block v = Some (c1 ++ gap ++ c2 ++ c3) →
  ∃ junk, length junk = length gap ∧
    copy_loop (length c2) (Z.of_nat (length c1 + length gap))
      (Z.of_nat (length c1)) v
    = Ret tt (with_block v (c1 ++ c2 ++ junk ++ c3)).
Proof.
  induction c2 as [|w c2 IH]; intros c1 gap c3 v Hb; simpl in Hb |- *.
  - exists gap. split; [done|]. by rewrite (with_block_id v _ Hb).
  - assert (block v = Some ((c1 ++ gap) ++ w :: c2 ++ c3)) as Hb1
      by (by rewrite Hb, <- app_assoc).
    replace (Z.of_nat (length c1 + length gap))
      with (Z.of_nat (length (c1 ++ gap))) by (by rewrite length_app).
    rewrite (load_block v _ _ w Hb1) by (by apply list_lookup_middle).
    rewrite bind_Ret.
    destruct (gap ++ [w]) as [|g0 gap1] eqn:Eg;
      [by destruct gap|].
    assert (length gap1 = length gap) as Hg.
    { apply (f_equal length) in Eg. rewrite length_app in Eg.
      simpl in Eg. lia. }
    assert (block v = Some (c1 ++ g0 :: gap1 ++ c2 ++ c3)) as Hb2.
    { rewrite Hb. f_equal. f_equal.
      change (g0 :: gap1 ++ c2 ++ c3) with ((g0 :: gap1) ++ c2 ++ c3).
      rewrite <- Eg. by rewrite <- app_assoc. }
    rewrite (store_block v _ _ w Hb2) by (rewrite length_app; simpl; lia).
    rewrite bind_Ret, insert_middle.
    destruct (IH (c1 ++ [w]) gap1 c3
                (with_block v (c1 ++ w :: gap1 ++ c2 ++ c3)))
      as (junk & Hj & Hrun).
    { erewrite block_with_block by exact Hb. by rewrite <- app_assoc. }
    exists junk. split; [lia|].
    rewrite !length_app in Hrun |- *. simpl in Hrun.
    rewrite Hg in Hrun.
    replace (Z.of_nat (length c1 + length gap) + 1)
      with (Z.of_nat (length c1 + 1 + length gap)) by lia.
    replace (Z.of_nat (length c1) + 1) with (Z.of_nat (length c1 + 1))
      by lia.
    rewrite Hrun, with_block_with_block. by rewrite <- app_assoc.
Qed.

Lemma erase_range_spec (v : VLVector) (first last : Z) (l : list T) :
  sane_template = true → valid v = true → holds v l →
  0 ≤ first ≤ last → last ≤ _size v →
  ∃ v', erase_range v first last = Ret first v' ∧ valid v' = true ∧
        holds v' (take (Z.to_nat first) l ++ drop (Z.to_nat last) l).
Proof.
  intros Hsane Hv (Hs & rest & Hb) Hfl Hlast.
  unfold erase_range, begin_, end_. rewrite Z.sub_0_r, Z.add_0_l.
  pose proof Hv as Hv0. apply valid_spec in Hv0 as (_ & Hsz & Hcap & _).
  set (c1 := take (Z.to_nat first) l).
  set (gap := take (Z.to_nat (last - first)) (drop (Z.to_nat first) l)).
  set (c2 := drop (Z.to_nat last) l).
  assert (length c1 = Z.to_nat first) as Hc1
    by (unfold c1; rewrite length_take_le; lia).
  assert (length gap = Z.to_nat (last - first)) as Hgap
    by (unfold gap; rewrite length_take_le; [done|];
        rewrite length_drop; lia).
  assert (length c2 = Z.to_nat (_size v - last)) as Hc2
    by (unfold c2; rewrite length_drop; lia).
  assert (l = c1 ++ gap ++ c2) as El.
  { unfold c1, gap, c2.
    rewrite <- (take_drop (Z.to_nat first) l) at 1. f_equal.
    rewrite <- (take_drop (Z.to_nat (last - first))
                  (drop (Z.to_nat first) l)) at 1.
    f_equal. rewrite drop_drop. f_equal. lia. }
  assert (block v = Some (c1 ++ gap ++ c2 ++ rest)) as Hb1.
  { rewrite Hb, El. by rewrite <- !app_assoc. }
  destruct (copy_loop_shift_spec c2 c1 gap rest v Hb1) as (junk & Hj & Hrun).
  unfold std_copy.
  destruct (Z.ltb_spec (_size v) last) as [E|_]; [lia|].
  rewrite <- Hc2.
  replace (Z.of_nat (length c1 + length gap)) with last in Hrun by lia.
  replace (Z.of_nat (length c1)) with first in Hrun by lia.
  rewrite Hrun, bind_Ret.
  rewrite with_block_size, (to_size_t_small (_size v - _)) by lia.
  set (v2 := set_size (with_block v (c1 ++ c2 ++ junk ++ rest))
               (_size v - (last - first))).
  destruct (shrink_if_small_spec v2 (c1 ++ c2) Hsane) as (v' & Hv' & Hok).
  - apply valid_set_size;
      [|destruct (with_block_header v (c1 ++ c2 ++ junk ++ rest))
          as (_ & -> & _); lia].
    erewrite valid_with_block; [exact Hv|exact Hb1|].
    rewrite !length_app. lia.
  - split; [simpl; rewrite length_app; lia|]. exists (junk ++ rest).
    unfold v2. rewrite block_set_size.
    erewrite block_with_block by exact Hb1. by rewrite <- app_assoc.
  - rewrite Hv', bind_Ret. by exists v'.
Qed.

End RangeRemoval.

Section Modes.
Context {tp : Template}.

(** ** The mode follows the size *)

Lemma grown_tight (v v' : VLVector) (n : Z) (full : bool) :
  0 ≤ _size v ≤ _capacity v → tight v →
  _size v ≤ n → _size v' = n →
  (full = true → _capacity v < n) →
  (full = false → n ≤ _capacity v) →
  (if full
   then _dynamic v' = true
   else _capacity v' = _capacity v ∧ _dynamic v' = _dynamic v) →
  tight v'.
Proof.
  unfold tight. intros Hsz [Ht1 Ht2] Hn Hs Hfull Hnot Hc. rewrite Hs.
  destruct full.
  - rewrite Hc. split; [done|]. split; [intros _|done].
    specialize (Hfull eq_refl).
    destruct (_dynamic v).
    + assert (StaticCapacity < _size v) by (by apply Ht2). lia.
    + specialize (Ht1 eq_refl). lia.
  - destruct Hc as [Hc Hd]. rewrite Hc, Hd. specialize (Hnot eq_refl).
    split; [done|]. destruct (_dynamic v).
    + split; [intros _|done].
      assert (StaticCapacity < _size v) by (by apply Ht2). lia.
    + split; [done|]. intros Hlt. specialize (Ht1 eq_refl). lia.
Qed.

Lemma shrunk_tight (v v' : VLVector) (n : Z) :
  tight v → n ≤ _size v → _size v' = n →
  (if (n <=? StaticCapacity) && _dynamic v
   then _capacity v' = StaticCapacity ∧ _dynamic v' = false
   else _capacity v' = _capacity v ∧ _dynamic v' = _dynamic v) →
  tight v'.
Proof.
  unfold tight. intros [Ht1 Ht2] Hn Hs Hc. rewrite Hs.
  destruct (Z.leb_spec n StaticCapacity) as [Hle|Hgt]; simpl in Hc.
  - destruct (_dynamic v) eqn:Ed; destruct Hc as [Hc Hd]; rewrite Hc, Hd.
    + split; [done|]. split; [done | lia].
    + split; [done|]. split; [done | lia].
  - destruct Hc as [Hc Hd]. rewrite Hc, Hd. split; [done|].
    destruct (_dynamic v).
    + split; [done | done].
    + split; [done|]. intros _.
      assert (false = true) as Hf by (apply Ht2; lia). done.
Qed.

End Modes.

Section Equality.
Context {tp : Template} {cmp : Comparable tp}.

(** ** Comparison *)

(** [std::equal] over the cells [c2] of one vector and the cells [d2] at the
    same offsets of the other, for an element comparison that decides
    equality. *)
Lemma std_equal_spec (c2 : list T) :
  ∀ (d2 c1 d1 c3 d3 : list T) (v w : VLVector),
  (∀ x y, T_eq x y = true ↔ x = y) →
  block v = Some (c1 ++ c2 ++ c3) → block w = Some (d1 ++ d2 ++ d3) →
  length d1 = length c1 → length d2 = length c2 →
  ∃ b, std_equal (length c2) (Z.of_nat (length c1)) v w = Some b ∧
       (b = true ↔ c2 = d2).
Proof.
  induction c2 as [|x c2 IH]; intros d2 c1 d1 c3 d3 v w Heq Hv Hw H1 H2.
  - destruct d2; [|done]. by exists true.
  - destruct d2 as [|y d2]; [done|]. simpl in Hv, Hw, H2 |- *.
    rewrite (peek_block v _ _ Hv), list_lookup_middle by done. simpl.
    rewrite <- H1.
    rewrite (peek_block w _ _ Hw), list_lookup_middle by done. simpl.
    destruct (T_eq x y) eqn:E.
    + apply Heq in E as ->.
      replace (Z.of_nat (length d1) + 1)
        with (Z.of_nat (length (c1 ++ [y])))
        by (rewrite length_app; simpl; lia).
      destruct (IH d2 (c1 ++ [y]) (d1 ++ [y]) c3 d3 v w Heq)
        as (b & Hb & Hiff).
      * by rewrite <- app_assoc.
      * by rewrite <- app_assoc.
      * rewrite !length_app. simpl. lia.
      * lia.
      * exists b. split; [done|]. rewrite Hiff. split; [by intros ->|].
        by intros [= ->].
    + exists false. split; [done|]. split; [done|]. intros [= -> _].
      assert (T_eq y y = true) as Hy by (by apply Heq). congruence.
Qed.

Lemma operator_eq_spec (v w : VLVector) (lv lw : list T) :
  (∀ x y, T_eq x y = true ↔ x = y) →
  holds v lv → holds w lw →
  ∃ b, operator_eq v w = Ret b v ∧ (b = true ↔ lv = lw).
Proof.
  intros Heq (Hsv & rv & Hbv) (Hsw & rw & Hbw). unfold operator_eq, size.
  destruct (Z.eqb_spec (_size v) (_size w)) as [E|E].
  - destruct (std_equal_spec lv lw [] [] rv rw v w Heq Hbv Hbw)
      as (b & Hb & Hiff); [done|lia|].
    unfold begin_. rewrite Hsv, Nat2Z.id.
    change (Z.of_nat (length (@nil T))) with 0 in Hb. rewrite Hb.
    by exists b.
  - exists false. split; [done|]. split; [done|]. intros ->. lia.
Qed.

End Equality.

Section Clearing.
Context {tp : Template}.

(** ** [clear], element assignment and how calls compose *)


Lemma store_spec (v : VLVector) (idx : Z) (x : T) (l : list T) :
  valid v = true → holds v l → 0 ≤ idx < _size v →
  ∃ v', store v idx x = Ret tt v' ∧ valid v' = true ∧
        holds v' (<[Z.to_nat idx := x]> l) ∧ same_header v v'.
Proof.
  intros Hv (Hs & rest & Hb) Hidx.
  rewrite (store_block_Z v _ idx x Hb) by (rewrite length_app; lia).
  eexists. split; [reflexivity|]. split; [|split].
  - erewrite valid_with_block; [exact Hv|exact Hb|].
    by rewrite length_insert.
  - split; [rewrite with_block_size, length_insert; done|].
    exists rest. erewrite block_with_block by exact Hb.
    by rewrite insert_app_l by lia.
  - apply with_block_header.
Qed.

(** [insert] at [end()] is [push_back]. *)
Lemma insert_at_end (v : VLVector) (x : T) :
  0 ≤ _size v < size_t_modulus →
  insert v (end_ v) x
    = do (_, v') <- push_back v x; Ret (_size v) v'.
Proof.
  intros Hs. unfold insert, push_back, begin_, end_.
  rewrite Z.sub_0_r, to_size_t_small by done.
  destruct (if _size v =? _capacity v then _increaseCapacity v
            else Ret tt v) as [u v1| |] eqn:Eg; [|done|done].
  assert (_size v1 = _size v) as Hs1.
  { apply grow_if_full_header in Eg. tauto. }
  rewrite !bind_Ret. simpl insert_shift. rewrite Hs1, Z.eqb_refl, bind_Ret.
  destruct (store v1 (_size v) x) as [u2 v2| |]; [|done|done].
  by rewrite !bind_Ret.
Qed.

(** [erase] of the last element is [pop_back]. *)
Lemma erase_last (v : VLVector) :
  0 < _size v →
  erase v (_size v - 1)
    = do (_, v') <- pop_back v; Ret (_size v - 1) v'.
Proof.
  intros Hs. unfold erase, pop_back, begin_, end_, NEXT_ELEM.
  rewrite advance_spec by lia.
  unfold std_copy.
  replace (_size v - 1 + 1) with (_size v) by lia.
  rewrite Z.ltb_irrefl, Z.sub_diag. simpl copy_loop. rewrite bind_Ret.
  destruct (if _ && _ then _ else _) as [u v1| |]; done.
Qed.

End Clearing.

(** * The claims *)

(** A sequence of [k] [push_back] calls on a freshly constructed vector
    completes, and afterwards the size is [k], the vector is dynamic exactly
    when [k > StaticCapacity], [_size <= _capacity], and a static vector has
    capacity [StaticCapacity]. Holding for every sequence, this holds after
    every push. *)
Theorem push_back_sequence (tp : Template) (xs : list T) :
  sane_template = true → room (Z.of_nat (length xs)) →
  ∃ v, push_all xs VLVector_ctor = Ret tt v ∧
       size v = Z.of_nat (length xs) ∧
       (_dynamic v = true ↔ StaticCapacity < Z.of_nat (length xs)) ∧
       size v ≤ capacity v ∧
       (_dynamic v = false → capacity v = StaticCapacity).
Proof.
  intros Hsane Hroom.
  destruct (push_all_spec xs VLVector_ctor [] Hsane (ctor_valid Hsane)
              (ctor_tight Hsane) ctor_holds Hroom)
    as (v & H & Hv & [Ht1 Ht2] & Hl).
  exists v. apply holds_length in Hl as Hs. simpl in Hs.
  apply valid_spec in Hv as (_ & Hsz & _).
  unfold size, capacity. rewrite <- Hs.
  split; [done|]. split; [done|]. split; [done|]. split; [lia | done].
Qed.

(** Five pushes into a [VLVector<int, 4>]. *)
Lemma push_back_sequence_witness :
  (@sane_template Int4.tp = true ∧ @room Int4.tp 5) ∧
  ∃ v, push_all (tp := Int4.tp) [1; 2; 3; 4; 5] VLVector_ctor = Ret tt v ∧
       size v = 5 ∧
       (_dynamic v = true ↔ 4 < 5) ∧
       size v ≤ capacity v ∧
       (_dynamic v = false → capacity v = 4).
Proof.
  assert (@sane_template Int4.tp = true) as H1 by (vm_compute; done).
  assert (@room Int4.tp 5) as H2 by (vm_compute; done).
  split; [done|].
  exact (push_back_sequence Int4.tp [1; 2; 3; 4; 5] H1 H2).
Defined.

(** C6 (the code departs from the claim). A [VLVector<int, 4>] that was
    filled with five elements and cleared is an empty container, reachable
    by public operations, on which the claim fails: [clear] leaves
    [_capacity] at 7, so after one [push_back] the vector is static with
    capacity 7, not 4, and the fifth [push_back] does not make it dynamic
    but writes past the four cells of the inline array. This is the missing
    [_capacity] reset of [clear]. *)
Theorem push_back_after_clear_keeps_stale_capacity :
  ∃ v0, clear (Int4.built [1; 2; 3; 4; 5]) = Ret tt v0 ∧
        reachable v0 ∧ size v0 = 0 ∧ empty v0 = true ∧
        (∃ v1, push_all (tp := Int4.tp) [1] v0 = Ret tt v1 ∧
               size v1 = 1 ∧ _dynamic v1 = false ∧ capacity v1 = 7 ∧
               capacity v1 ≠ @StaticCapacity Int4.tp) ∧
        (∃ v4, push_all (tp := Int4.tp) [1; 2; 3; 4] v0 = Ret tt v4 ∧
               size v4 = 4 ∧ _dynamic v4 = false ∧
               ∀ x, push_back v4 x = Undefined) ∧
        push_all (tp := Int4.tp) [1; 2; 3; 4; 5] v0 = Undefined.
Proof.
  eexists. split; [vm_compute; reflexivity|]. split; [|split; [done|]].
  - eapply (reach_clear (Int4.built [1; 2; 3; 4; 5]) tt).
    + eapply (@reach_range_ctor Int4.tp [1; 2; 3; 4; 5] tt); by vm_compute.
    + by vm_compute.
  - split; [done|]. split; [|split; [|by vm_compute]].
    + eexists. split; [vm_compute; reflexivity|]. by vm_compute.
    + eexists. split; [vm_compute; reflexivity|].
      split; [done|]. split; [done|]. intros x. reflexivity.
Qed.

(** C10. Constructing a vector from a range and iterating from [begin()] to
    [end()] yields the elements of the range in order. *)
Theorem range_ctor_round_trip (tp : Template) (xs : list T) :
  sane_template = true → room (Z.of_nat (length xs)) →
  ∃ v, VLVector_range xs = Ret tt v ∧ elements v = Some xs.
Proof.
  intros Hsane Hroom. unfold VLVector_range.
  destruct (push_all_spec xs VLVector_ctor [] Hsane (ctor_valid Hsane)
              (ctor_tight Hsane) ctor_holds Hroom)
    as (v & H & _ & _ & Hl).
  exists v. split; [done|]. by apply holds_elements.
Qed.

(** [VLVector<int, 4>] built from [[1, 2, 3, 4, 5]]. *)
Lemma range_ctor_round_trip_witness :
  (@sane_template Int4.tp = true ∧ @room Int4.tp 5) ∧
  ∃ v, VLVector_range (tp := Int4.tp) [1; 2; 3; 4; 5] = Ret tt v ∧
       elements v = Some [1; 2; 3; 4; 5].
Proof.
  assert (@sane_template Int4.tp = true) as H1 by (vm_compute; done).
  assert (@room Int4.tp 5) as H2 by (vm_compute; done).
  split; [done|].
  exact (range_ctor_round_trip Int4.tp [1; 2; 3; 4; 5] H1 H2).
Defined.





(** On a consistent vector [insert(pos, x)] followed by [erase] at the
    returned position restores the original sequence: same size, same
    elements in order. *)
Theorem insert_erase_inverse (tp : Template) (v : VLVector) (pos : Z)
    (x : T) :
  sane_template = true → valid v = true → room (size v) →
  0 ≤ pos ≤ size v →
  ∃ l v1 v2,
    elements v = Some l ∧
    insert v pos x = Ret pos v1 ∧
    erase v1 pos = Ret pos v2 ∧
    elements v2 = Some l ∧ size v2 = size v.
Proof.
  unfold size. intros Hsane Hv Hroom Hpos.
  destruct (valid_holds v Hv) as [l Hl].
  pose proof (holds_length _ _ Hl) as Hlen.
  destruct (insert_spec v pos x l Hsane Hv Hl Hroom Hpos)
    as (v1 & H1 & Hv1 & Hl1).
  pose proof (holds_length _ _ Hl1) as Hlen1.
  rewrite length_app in Hlen1. simpl in Hlen1.
  rewrite length_take_le, length_drop in Hlen1 by lia.
  destruct (erase_spec v1 pos _ Hsane Hv1 Hl1) as (v2 & H2 & Hv2 & Hl2);
    [lia|].
  rewrite delete_inserted in Hl2 by lia.
  exists l, v1, v2. split; [by apply holds_elements|].
  split; [done|]. split; [done|]. split; [by apply holds_elements|].
  rewrite (holds_length _ _ Hl2). done.
Qed.

(** Inserting 9 at position 1 of [[1, 2, 3]] and erasing it again. *)
Lemma insert_erase_inverse_witness :
  (@sane_template Int4.tp = true ∧
   valid (Int4.built [1; 2; 3]) = true ∧
   room (size (Int4.built [1; 2; 3])) ∧
   0 ≤ 1 ≤ size (Int4.built [1; 2; 3])) ∧
  ∃ l v1 v2,
    elements (Int4.built [1; 2; 3]) = Some l ∧
    insert (Int4.built [1; 2; 3]) 1 9 = Ret 1 v1 ∧
    erase v1 1 = Ret 1 v2 ∧
    elements v2 = Some l ∧ size v2 = size (Int4.built [1; 2; 3]).
Proof.
  assert (@sane_template Int4.tp = true) as H1 by (vm_compute; done).
  assert (valid (Int4.built [1; 2; 3]) = true) as H2 by (vm_compute; done).
  assert (room (size (Int4.built [1; 2; 3]))) as H3 by (vm_compute; done).
  assert (0 ≤ 1 ≤ size (Int4.built [1; 2; 3])) as H4
    by (vm_compute; split; discriminate).
  split; [done|].
  exact (insert_erase_inverse Int4.tp (Int4.built [1; 2; 3]) 1 9
           H1 H2 H3 H4).
Defined.

(** C9 (the code departs from the claim). A [VLVector<int, 4>] that was
    filled with five elements, cleared and filled with four elements again
    is reachable by public operations and holds [[1, 2, 3, 4]] in the four
    cells of the inline array, with [_capacity] still 7. [insert] on it does
    not grow, since [_size] is not [_capacity], and writes [data()[4]], past
    the inline array, at every position: there is no sequence to restore.
    This is the missing [_capacity] reset of [clear]. *)
Theorem insert_after_clear_is_undefined :
  ∃ v0 v, clear (Int4.built [1; 2; 3; 4; 5]) = Ret tt v0 ∧
          push_all (tp := Int4.tp) [1; 2; 3; 4] v0 = Ret tt v ∧
          reachable v ∧
          elements v = Some [1; 2; 3; 4] ∧
          size v = 4 ∧ capacity v = 7 ∧ _dynamic v = false ∧
          valid v = false ∧
          ∀ pos x, insert v pos x = Undefined.
Proof.
  pose (v0 := Int4.state_of (clear (Int4.built [1; 2; 3; 4; 5]))).
  pose (after := λ xs : list Z, Int4.state_of (push_all xs v0)).
  assert (reachable v0) as Hr0.
  { eapply (reach_clear (Int4.built [1; 2; 3; 4; 5]) tt).
    - eapply (@reach_range_ctor Int4.tp [1; 2; 3; 4; 5] tt); by vm_compute.
    - by vm_compute. }
  assert (reachable (after [1])) as Hr1.
  { eapply (@reach_push_back Int4.tp v0 1 tt); [done| |]; by vm_compute. }
  assert (reachable (after [1; 2])) as Hr2.
  { eapply (@reach_push_back Int4.tp (after [1]) 2 tt); [done| |];
      by vm_compute. }
  assert (reachable (after [1; 2; 3])) as Hr3.
  { eapply (@reach_push_back Int4.tp (after [1; 2]) 3 tt); [done| |];
      by vm_compute. }
  assert (reachable (after [1; 2; 3; 4])) as Hr4.
  { eapply (@reach_push_back Int4.tp (after [1; 2; 3]) 4 tt); [done| |];
      by vm_compute. }
  exists v0, (after [1; 2; 3; 4]).
  split; [by vm_compute|]. split; [by vm_compute|]. split; [done|].
  split; [by vm_compute|]. split; [by vm_compute|].
  split; [by vm_compute|]. split; [by vm_compute|].
  split; [by vm_compute|].
  intros pos x.
  assert (after [1; 2; 3; 4]
          = mkVLVector [1; 2; 3; 4] false 4 7 to_statData) as ->
    by (by vm_compute).
  unfold insert, begin_, end_. simpl.
  match goal with |- context [if ?b then _ else _] => destruct b end;
    reflexivity.
Qed.

(** C3 (amended). When a size-increasing call triggers growth, the new
    capacity is [(n + 1) * 3 / 2] with integer division, where [n] is
    [_size] when [_increaseCapacity] runs: the element count before the
    insertion for [push_back] and the single-element [insert], and the
    element count plus the length of the range for the range [insert]. *)
Theorem growth_capacity (tp : Template) (c : growing_call) (v : VLVector)
    (a : unit) (v' : VLVector) :
  0 ≤ size v →
  3 * (size_at_growth c v + 1) < size_t_modulus →
  triggers_growth c v = true →
  run_call c v = Ret a v' →
  capacity v' = (size_at_growth c v + 1) * 3 / 2.
Proof.
  unfold size, capacity. intros Hs Hlim Ht H.
  destruct c as [x|iter x|iter rng]; simpl in *.
  - apply push_back_header in H as (_ & Hc). rewrite Ht in Hc.
    destruct Hc as [-> _]. unfold INCREASE_INC.
    rewrite to_size_t_small, times_INCREASE_FACTOR_small by lia. done.
  - apply bind_Ret_inv in H as (r & v1 & H & [= _ <-]).
    apply insert_header in H as (_ & Hc). rewrite Ht in Hc.
    destruct Hc as [-> _]. unfold INCREASE_INC.
    rewrite to_size_t_small, times_INCREASE_FACTOR_small by lia. done.
  - apply bind_Ret_inv in H as (r & v1 & H & [= _ <-]).
    apply insert_range_header in H as (_ & _ & _ & Hc).
    rewrite Ht in Hc. destruct Hc as [-> _]. unfold INCREASE_INC.
    rewrite (to_size_t_small (_size v + _)) by lia.
    rewrite to_size_t_small, times_INCREASE_FACTOR_small by lia. done.
Qed.

(** Pushing a fifth element into a full [VLVector<int, 4>] yields
    capacity 7. *)
Lemma growth_capacity_witness :
  (0 ≤ size (Int4.built [1; 2; 3; 4]) ∧
   3 * (size_at_growth (call_push_back 5) (Int4.built [1; 2; 3; 4]) + 1)
     < size_t_modulus ∧
   triggers_growth (call_push_back 5) (Int4.built [1; 2; 3; 4]) = true ∧
   run_call (call_push_back 5) (Int4.built [1; 2; 3; 4])
     = Ret tt (Int4.built [1; 2; 3; 4; 5])) ∧
  capacity (Int4.built [1; 2; 3; 4; 5]) = 7.
Proof.
  assert (0 ≤ size (Int4.built [1; 2; 3; 4])) as H1 by (vm_compute; done).
  assert (3 * (size_at_growth (call_push_back 5) (Int4.built [1; 2; 3; 4])
               + 1) < size_t_modulus) as H2 by (vm_compute; done).
  assert (triggers_growth (call_push_back 5) (Int4.built [1; 2; 3; 4])
          = true) as H3 by (vm_compute; done).
  assert (run_call (call_push_back 5) (Int4.built [1; 2; 3; 4])
          = Ret tt (Int4.built [1; 2; 3; 4; 5])) as H4
    by (vm_compute; done).
  split; [done|].
  exact (growth_capacity Int4.tp (call_push_back 5) _ tt _ H1 H2 H3 H4).
Defined.

(** C3 as stated fails for the range [insert]: inserting the one-element
    range [8] at the end of a [VLVector<int, 4>] holding seven elements with
    capacity 7 triggers growth, and the new capacity is 13, not
    [(7 + 1) * 3 / 2 = 12]. *)
Lemma growth_capacity_counterexample :
  size (Int4.built [1; 2; 3; 4; 5; 6; 7]) = 7 ∧
  capacity (Int4.built [1; 2; 3; 4; 5; 6; 7]) = 7 ∧
  triggers_growth (call_insert_range 7 [8])
    (Int4.built [1; 2; 3; 4; 5; 6; 7]) = true ∧
  (∃ v', run_call (call_insert_range 7 [8])
           (Int4.built [1; 2; 3; 4; 5; 6; 7]) = Ret tt v' ∧
         elements v' = Some [1; 2; 3; 4; 5; 6; 7; 8] ∧
         capacity v' = 13 ∧
         capacity v'
           ≠ (size (Int4.built [1; 2; 3; 4; 5; 6; 7]) + 1) * 3 / 2).
Proof.
  split; [done|]. split; [done|]. split; [done|].
  eexists. split; [vm_compute; reflexivity|]. by vm_compute.
Qed.

(** C4 (amended). [_size <= _capacity] holds in every state reached by the
    public operations called within their preconditions; in particular it
    is kept by [pop_back] on a non-empty vector and by the range [erase] of
    a non-reversed range. *)
Theorem size_le_capacity_reachable (tp : Template) :
  0 ≤ StaticCapacity →
  (∀ v, reachable v → size_le_capacity v) ∧
  (∀ v a v', size_le_capacity v → 0 < size v →
             pop_back v = Ret a v' → size_le_capacity v') ∧
  (∀ v first last r v', size_le_capacity v → 0 ≤ first ≤ last →
             erase_range v first last = Ret r v' → size_le_capacity v').
Proof.
  intros HN. split; [|split].
  - intros v Hr.
    induction Hr as
      [ | xs a v' H Hlim
        | toCopy a v' _ _ H Hlim
        | v x a v' _ IH H Hlim
        | v a v' _ IH Hpos H
        | v iter x r v' _ IH H Hlim
        | v iter rng r v' _ IH H Hlim
        | v iter r v' _ IH H
        | v first last r v' _ IH Hpre H
        | v a v' _ IH H
        | v rhs a v' _ IH _ _ H Hlim
        | v a v' _ IH H ].
    + by apply ctor_size_le_capacity.
    + apply (push_all_size_le_capacity xs VLVector_ctor a v');
        [by apply ctor_size_le_capacity|simpl; unfold STARTING_SIZE; lia
        |exact H].
    + by eapply assign_other_size_le_capacity.
    + by eapply push_back_size_le_capacity.
    + by eapply pop_back_size_le_capacity.
    + by eapply insert_size_le_capacity.
    + by eapply insert_range_size_le_capacity.
    + by eapply erase_size_le_capacity.
    + eapply erase_range_size_le_capacity; [exact IH| |exact H]. lia.
    + by eapply clear_size_le_capacity.
    + by eapply assign_other_size_le_capacity.
    + simpl in H. by injection H as _ <-.
  - intros v a v'. apply pop_back_size_le_capacity.
  - intros v first last r v'. apply erase_range_size_le_capacity.
Qed.

(** A [VLVector<int, 4>] after five pushes and a [pop_back]; [pop_back] on
    [[1]]; the range [erase] of [[1, 3)] from [[1, 9, 2, 3]]. *)
Lemma size_le_capacity_reachable_witness :
  0 ≤ @StaticCapacity Int4.tp ∧
  size_le_capacity (Int4.state_of (pop_back (Int4.built [1; 2; 3; 4; 5]))) ∧
  size_le_capacity (Int4.state_of (pop_back (Int4.built [1]))) ∧
  size_le_capacity
    (Int4.state_of (erase_range (Int4.built [1; 9; 2; 3]) 1 3)).
Proof.
  assert (0 ≤ @StaticCapacity Int4.tp) as HN by (vm_compute; done).
  destruct (size_le_capacity_reachable Int4.tp HN) as (Hreach & Hpop & Hers).
  assert (∀ xs, 3 * (Z.of_nat (length xs) + 1) < size_t_modulus →
                VLVector_range xs = Ret tt (Int4.built xs) →
                reachable (Int4.built xs)) as Hbuilt.
  { intros xs Hlim Hrun. by eapply reach_range_ctor. }
  split; [exact HN|]. split; [|split].
  - apply Hreach.
    eapply (reach_pop_back (Int4.built [1; 2; 3; 4; 5]) tt).
    + apply Hbuilt; by vm_compute.
    + by vm_compute.
    + by vm_compute.
  - eapply (Hpop (Int4.built [1]) tt).
    + apply Hreach, Hbuilt; by vm_compute.
    + by vm_compute.
    + by vm_compute.
  - eapply (Hers (Int4.built [1; 9; 2; 3]) 1 3 1).
    + apply Hreach, Hbuilt; by vm_compute.
    + lia.
    + by vm_compute.
Defined.

(** C4 as stated fails for [pop_back] on an empty vector: [--_size] wraps
    around to [2^64 - 1] while the capacity stays 4. *)
Lemma pop_back_empty_counterexample :
  ∃ v', pop_back (tp := Int4.tp) VLVector_ctor = Ret tt v' ∧
        size v' = 18446744073709551615 ∧ capacity v' = 4 ∧
        ¬ size_le_capacity v'.
Proof.
  eexists. split; [vm_compute; reflexivity|].
  split; [done|]. split; [done|].
  unfold size_le_capacity. simpl. vm_compute. intros [_ H]. by apply H.
Qed.

(** C1 (the code departs from the claim). After five pushes into a
    [VLVector<int, 4>], [clear()] leaves a static, empty vector whose
    capacity is still 7: [clear] does not reset [_capacity] as
    [_decreaseCapacity] does. The state is reachable, and five further
    pushes then write past the four cells of the inline array. *)
Theorem clear_keeps_dynamic_capacity :
  ∃ v', clear (Int4.built [1; 2; 3; 4; 5]) = Ret tt v' ∧
        reachable v' ∧
        _dynamic v' = false ∧ size v' = 0 ∧ capacity v' = 7 ∧
        capacity v' ≠ @StaticCapacity Int4.tp ∧
        push_all (tp := Int4.tp) [1; 2; 3; 4; 5] v' = Undefined.
Proof.
  eexists. split; [vm_compute; reflexivity|]. split.
  - eapply (reach_clear (Int4.built [1; 2; 3; 4; 5]) tt).
    + eapply (@reach_range_ctor Int4.tp [1; 2; 3; 4; 5] tt); by vm_compute.
    + by vm_compute.
  - by vm_compute.
Qed.

(** C2 (the code departs from the claim). Assigning [[2]] to a
    [VLVector<int, 4>] that holds [[1]] leaves it holding [[2, 1]]:
    [operator=] does not reset [_size] before it inserts the source range.
    Assigning [[2]] to a dynamic vector of five elements releases the heap
    block and then reads the old elements through the dangling [_curData].
    Self-assignment leaves the object as it was, and assignment to an empty
    static object copies the source ([assign_to_empty_spec]). *)
Theorem assign_to_nonempty_keeps_old_elements :
  (∃ v', assign (Int4.built [1]) (other_object (Int4.built [2]))
           = Ret tt v' ∧
         elements (Int4.built [2]) = Some [2] ∧
         elements v' = Some [2; 1] ∧ size v' = 2) ∧
  assign (Int4.built [1; 2; 3; 4; 5]) (other_object (Int4.built [2]))
    = Undefined ∧
  (∀ (tp : Template) (v : VLVector), assign v this_object = Ret tt v).
Proof.
  split; [|split; [by vm_compute | done]].
  eexists. split; [vm_compute; reflexivity|]. by vm_compute.
Qed.

(** C5 (the code departs from the claim). Inserting the range [[5]] at the
    end of a full static [VLVector<int, 4>] has undefined behaviour: the
    range [insert] adds the range length to [_size] before it calls
    [_increaseCapacity], whose copy loop then reads [data()[4]], one cell
    past the inline array. The single-element [insert] grows first and
    yields [[1, 2, 3, 4, 5]]. Where the active block has a cell for every
    element counted, the two agree ([insert_range_agrees]). *)
Theorem insert_range_reads_past_inline_array :
  insert_range (Int4.built [1; 2; 3; 4]) 4 [5] = Undefined ∧
  _increaseCapacity (set_size (Int4.built [1; 2; 3; 4]) 5) = Undefined ∧
  peek (set_size (Int4.built [1; 2; 3; 4]) 5) 4 = None ∧
  (∃ v', insert_each [5] 4 (Int4.built [1; 2; 3; 4]) = Ret 4 v' ∧
         elements v' = Some [1; 2; 3; 4; 5]).
Proof.
  split; [by vm_compute|]. split; [by vm_compute|]. split; [by vm_compute|].
  eexists. split; [vm_compute; reflexivity|]. by vm_compute.
Qed.

(** * Further properties of the operations *)

(** [push_back] on a consistent vector appends the element: the elements
    before are kept in order, the size grows by one and the object stays
    consistent, whether or not the call has to grow. *)
Theorem push_back_appends (tp : Template) (v : VLVector) (x : T) :
  sane_template = true → valid v = true → room (size v) →
  ∃ l v', elements v = Some l ∧
          push_back v x = Ret tt v' ∧
          elements v' = Some (l ++ [x]) ∧
          size v' = size v + 1 ∧ valid v' = true.
Proof.
  unfold size. intros Hsane Hv Hroom.
  destruct (valid_holds v Hv) as [l Hl].
  destruct (push_back_spec v x l Hsane Hv Hl Hroom) as (v' & H & Hv' & Hl').
  exists l, v'. split; [by apply holds_elements|]. split; [done|].
  split; [by apply holds_elements|]. split; [|done].
  rewrite (holds_length _ _ Hl), (holds_length _ _ Hl'), length_app.
  simpl. lia.
Qed.

Lemma push_back_appends_witness :
  (@sane_template Int4.tp = true ∧
   valid (Int4.built [1; 2; 3; 4]) = true ∧
   room (size (Int4.built [1; 2; 3; 4]))) ∧
  ∃ l v', elements (Int4.built [1; 2; 3; 4]) = Some l ∧
          push_back (Int4.built [1; 2; 3; 4]) 5 = Ret tt v' ∧
          elements v' = Some (l ++ [5]) ∧
          size v' = size (Int4.built [1; 2; 3; 4]) + 1 ∧
          valid v' = true.
Proof.
  assert (@sane_template Int4.tp = true) as H1 by (vm_compute; done).
  assert (valid (Int4.built [1; 2; 3; 4]) = true) as H2
    by (vm_compute; done).
  assert (room (size (Int4.built [1; 2; 3; 4]))) as H3
    by (vm_compute; done).
  split; [done|].
  exact (push_back_appends Int4.tp (Int4.built [1; 2; 3; 4]) 5 H1 H2 H3).
Defined.

(** [pop_back] on a consistent, non-empty vector removes the last element
    and keeps the others in order, whether or not the call shrinks. *)
Theorem pop_back_removes_last (tp : Template) (v : VLVector) :
  sane_template = true → valid v = true → 0 < size v →
  ∃ l x v', elements v = Some (l ++ [x]) ∧
            pop_back v = Ret tt v' ∧
            elements v' = Some l ∧
            size v' = size v - 1 ∧ valid v' = true.
Proof.
  unfold size. intros Hsane Hv Hpos.
  destruct (valid_holds v Hv) as [l0 Hl0].
  pose proof (holds_length _ _ Hl0) as Hlen.
  destruct l0 as [|x l _] using rev_ind; [simpl in Hlen; lia|].
  destruct (pop_back_spec v l x Hsane Hv Hl0) as (v' & H & Hv' & Hl').
  exists l, x, v'. split; [by apply holds_elements|]. split; [done|].
  split; [by apply holds_elements|]. split; [|done].
  rewrite (holds_length _ _ Hl'), Hlen, length_app. simpl. lia.
Qed.

Lemma pop_back_removes_last_witness :
  (@sane_template Int4.tp = true ∧
   valid (Int4.built [1; 2; 3]) = true ∧
   0 < size (Int4.built [1; 2; 3])) ∧
  ∃ l x v', elements (Int4.built [1; 2; 3]) = Some (l ++ [x]) ∧
            pop_back (Int4.built [1; 2; 3]) = Ret tt v' ∧
            elements v' = Some l ∧
            size v' = size (Int4.built [1; 2; 3]) - 1 ∧
            valid v' = true.
Proof.
  assert (@sane_template Int4.tp = true) as H1 by (vm_compute; done).
  assert (valid (Int4.built [1; 2; 3]) = true) as H2 by (vm_compute; done).
  assert (0 < size (Int4.built [1; 2; 3])) as H3 by (vm_compute; done).
  split; [done|].
  exact (pop_back_removes_last Int4.tp (Int4.built [1; 2; 3]) H1 H2 H3).
Defined.

(** [push_back] followed by [pop_back] restores the sequence. *)
Theorem push_back_pop_back_inverse (tp : Template) (v : VLVector) (x : T) :
  sane_template = true → valid v = true → room (size v) →
  ∃ l v1 v2, elements v = Some l ∧
             push_back v x = Ret tt v1 ∧
             pop_back v1 = Ret tt v2 ∧
             elements v2 = Some l ∧ size v2 = size v.
Proof.
  unfold size. intros Hsane Hv Hroom.
  destruct (valid_holds v Hv) as [l Hl].
  destruct (push_back_spec v x l Hsane Hv Hl Hroom) as (v1 & H1 & Hv1 & Hl1).
  destruct (pop_back_spec v1 l x Hsane Hv1 Hl1) as (v2 & H2 & Hv2 & Hl2).
  exists l, v1, v2. split; [by apply holds_elements|].
  split; [done|]. split; [done|]. split; [by apply holds_elements|].
  by rewrite (holds_length _ _ Hl), (holds_length _ _ Hl2).
Qed.

Lemma push_back_pop_back_inverse_witness :
  (@sane_template Int4.tp = true ∧
   valid (Int4.built [1; 2; 3; 4]) = true ∧
   room (size (Int4.built [1; 2; 3; 4]))) ∧
  ∃ l v1 v2, elements (Int4.built [1; 2; 3; 4]) = Some l ∧
             push_back (Int4.built [1; 2; 3; 4]) 5 = Ret tt v1 ∧
             pop_back v1 = Ret tt v2 ∧
             elements v2 = Some l ∧
             size v2 = size (Int4.built [1; 2; 3; 4]).
Proof.
  assert (@sane_template Int4.tp = true) as H1 by (vm_compute; done).
  assert (valid (Int4.built [1; 2; 3; 4]) = true) as H2
    by (vm_compute; done).
  assert (room (size (Int4.built [1; 2; 3; 4]))) as H3
    by (vm_compute; done).
  split; [done|].
  exact (push_back_pop_back_inverse Int4.tp (Int4.built [1; 2; 3; 4]) 5
           H1 H2 H3).
Defined.

(** [insert(pos, x)] on a consistent vector puts [x] at [pos], keeps the
    elements before it and moves the ones from [pos] on one place up; it
    returns [pos], where [at] then finds [x]. *)
Theorem insert_places_element (tp : Template) (v : VLVector) (pos : Z)
    (x : T) :
  sane_template = true → valid v = true → room (size v) →
  0 ≤ pos ≤ size v →
  ∃ l v', elements v = Some l ∧
          insert v pos x = Ret pos v' ∧
          elements v'
            = Some (take (Z.to_nat pos) l ++ x :: drop (Z.to_nat pos) l) ∧
          at_ v' pos = Ret x v' ∧ valid v' = true.
Proof.
  unfold size. intros Hsane Hv Hroom Hpos.
  destruct (valid_holds v Hv) as [l Hl].
  pose proof (holds_length _ _ Hl) as Hlen.
  destruct (insert_spec v pos x l Hsane Hv Hl Hroom Hpos)
    as (v' & H & Hv' & Hl').
  exists l, v'. split; [by apply holds_elements|]. split; [done|].
  split; [by apply holds_elements|]. split; [|done].
  pose proof (holds_length _ _ Hl') as Hlen'.
  rewrite length_app in Hlen'. simpl in Hlen'.
  rewrite length_take_le, length_drop in Hlen' by lia.
  destruct (at_spec v' pos _ Hv' Hl') as [_ Hat]; [lia|].
  destruct Hat as (y & Hy & Hat); [lia|].
  rewrite list_lookup_middle in Hy by (rewrite length_take_le; lia).
  by injection Hy as <-.
Qed.

Lemma insert_places_element_witness :
  (@sane_template Int4.tp = true ∧
   valid (Int4.built [1; 2; 3]) = true ∧
   room (size (Int4.built [1; 2; 3])) ∧
   0 ≤ 1 ≤ size (Int4.built [1; 2; 3])) ∧
  ∃ l v', elements (Int4.built [1; 2; 3]) = Some l ∧
          insert (Int4.built [1; 2; 3]) 1 9 = Ret 1 v' ∧
          elements v'
            = Some (take (Z.to_nat 1) l ++ 9 :: drop (Z.to_nat 1) l) ∧
          at_ v' 1 = Ret 9 v' ∧ valid v' = true.
Proof.
  assert (@sane_template Int4.tp = true) as H1 by (vm_compute; done).
  assert (valid (Int4.built [1; 2; 3]) = true) as H2 by (vm_compute; done).
  assert (room (size (Int4.built [1; 2; 3]))) as H3 by (vm_compute; done).
  assert (0 ≤ 1 ≤ size (Int4.built [1; 2; 3])) as H4
    by (vm_compute; split; discriminate).
  split; [done|].
  exact (insert_places_element Int4.tp (Int4.built [1; 2; 3]) 1 9
           H1 H2 H3 H4).
Defined.

(** [erase(pos)] on a consistent vector removes the element at [pos], keeps
    the others in order and returns [pos]. *)
Theorem erase_removes_element (tp : Template) (v : VLVector) (pos : Z) :
  sane_template = true → valid v = true → 0 ≤ pos < size v →
  ∃ l v', elements v = Some l ∧
          erase v pos = Ret pos v' ∧
          elements v'
            = Some (take (Z.to_nat pos) l ++ drop (S (Z.to_nat pos)) l) ∧
          size v' = size v - 1 ∧ valid v' = true.
Proof.
  unfold size. intros Hsane Hv Hpos.
  destruct (valid_holds v Hv) as [l Hl].
  pose proof (holds_length _ _ Hl) as Hlen.
  destruct (erase_spec v pos l Hsane Hv Hl Hpos) as (v' & H & Hv' & Hl').
  exists l, v'. split; [by apply holds_elements|]. split; [done|].
  split; [by apply holds_elements|]. split; [|done].
  rewrite (holds_length _ _ Hl'), length_app, length_take_le, length_drop
    by lia. lia.
Qed.

Lemma erase_removes_element_witness :
  (@sane_template Int4.tp = true ∧
   valid (Int4.built [1; 9; 2; 3]) = true ∧
   0 ≤ 1 < size (Int4.built [1; 9; 2; 3])) ∧
  ∃ l v', elements (Int4.built [1; 9; 2; 3]) = Some l ∧
          erase (Int4.built [1; 9; 2; 3]) 1 = Ret 1 v' ∧
          elements v'
            = Some (take (Z.to_nat 1) l ++ drop (S (Z.to_nat 1)) l) ∧
          size v' = size (Int4.built [1; 9; 2; 3]) - 1 ∧
          valid v' = true.
Proof.
  assert (@sane_template Int4.tp = true) as H1 by (vm_compute; done).
  assert (valid (Int4.built [1; 9; 2; 3]) = true) as H2
    by (vm_compute; done).
  assert (0 ≤ 1 < size (Int4.built [1; 9; 2; 3])) as H3
    by (vm_compute; split; [discriminate | done]).
  split; [done|].
  exact (erase_removes_element Int4.tp (Int4.built [1; 9; 2; 3]) 1
           H1 H2 H3).
Defined.

(** [erase(first, last)] on a consistent vector removes the elements of
    [[first, last)], keeps the others in order and returns [first]. *)
Theorem erase_range_removes_range (tp : Template) (v : VLVector)
    (first last : Z) :
  sane_template = true → valid v = true →
  0 ≤ first ≤ last → last ≤ size v →
  ∃ l v', elements v = Some l ∧
          erase_range v first last = Ret first v' ∧
          elements v'
            = Some (take (Z.to_nat first) l ++ drop (Z.to_nat last) l) ∧
          size v' = size v - (last - first) ∧ valid v' = true.
Proof.
  unfold size. intros Hsane Hv Hfl Hlast.
  destruct (valid_holds v Hv) as [l Hl].
  pose proof (holds_length _ _ Hl) as Hlen.
  destruct (erase_range_spec v first last l Hsane Hv Hl Hfl Hlast)
    as (v' & H & Hv' & Hl').
  exists l, v'. split; [by apply holds_elements|]. split; [done|].
  split; [by apply holds_elements|]. split; [|done].
  rewrite (holds_length _ _ Hl'), length_app, length_take_le, length_drop
    by lia. lia.
Qed.

Lemma erase_range_removes_range_witness :
  (@sane_template Int4.tp = true ∧
   valid (Int4.built [1; 9; 2; 3]) = true ∧
   0 ≤ 1 ≤ 3 ∧ 3 ≤ size (Int4.built [1; 9; 2; 3])) ∧
  ∃ l v', elements (Int4.built [1; 9; 2; 3]) = Some l ∧
          erase_range (Int4.built [1; 9; 2; 3]) 1 3 = Ret 1 v' ∧
          elements v'
            = Some (take (Z.to_nat 1) l ++ drop (Z.to_nat 3) l) ∧
          size v' = size (Int4.built [1; 9; 2; 3]) - (3 - 1) ∧
          valid v' = true.
Proof.
  assert (@sane_template Int4.tp = true) as H1 by (vm_compute; done).
  assert (valid (Int4.built [1; 9; 2; 3]) = true) as H2
    by (vm_compute; done).
  assert (0 ≤ 1 ≤ 3) as H3 by lia.
  assert (3 ≤ size (Int4.built [1; 9; 2; 3])) as H4
    by (vm_compute; discriminate).
  split; [done|].
  exact (erase_range_removes_range Int4.tp (Int4.built [1; 9; 2; 3]) 1 3
           H1 H2 H3 H4).
Defined.

(** The range [insert] that fits the capacity inserts the range at the
    position, keeps the other elements in order around it, returns the
    position and leaves the capacity as it was. *)
Theorem insert_range_within_capacity (tp : Template) (v : VLVector)
    (pos : Z) (rng : list T) :
  sane_template = true → valid v = true →
  room (size v + Z.of_nat (length rng)) →
  0 ≤ pos ≤ size v →
  size v + Z.of_nat (length rng) ≤ capacity v →
  ∃ l v', elements v = Some l ∧
          insert_range v pos rng = Ret pos v' ∧
          elements v'
            = Some (take (Z.to_nat pos) l ++ rng ++ drop (Z.to_nat pos) l) ∧
          capacity v' = capacity v ∧ valid v' = true.
Proof.
  unfold size, capacity. intros Hsane Hv Hroom Hpos Hfit.
  destruct (valid_holds v Hv) as [l Hl].
  destruct (valid_block v Hv) as (c & Hb & Hc).
  destruct (insert_range_spec v pos rng l c Hsane Hv Hl Hb)
    as (v' & H & Hv' & Hl'); [lia|done|done|].
  exists l, v'. split; [by apply holds_elements|]. split; [done|].
  split; [by apply holds_elements|]. split; [|done].
  apply valid_spec in Hv as (_ & Hsz & Hcap & _).
  apply insert_range_header in H as (_ & _ & _ & Hcp).
  rewrite to_size_t_small in Hcp by lia.
  destruct (Z.gtb_spec (_size v + Z.of_nat (length rng)) (_capacity v));
    [lia | tauto].
Qed.

Lemma insert_range_within_capacity_witness :
  (@sane_template Int4.tp = true ∧
   valid (Int4.built [1; 2]) = true ∧
   room (size (Int4.built [1; 2]) + Z.of_nat (length [7; 8])) ∧
   0 ≤ 1 ≤ size (Int4.built [1; 2]) ∧
   size (Int4.built [1; 2]) + Z.of_nat (length [7; 8])
     ≤ capacity (Int4.built [1; 2])) ∧
  ∃ l v', elements (Int4.built [1; 2]) = Some l ∧
          insert_range (Int4.built [1; 2]) 1 [7; 8] = Ret 1 v' ∧
          elements v'
            = Some (take (Z.to_nat 1) l ++ [7; 8] ++ drop (Z.to_nat 1) l) ∧
          capacity v' = capacity (Int4.built [1; 2]) ∧ valid v' = true.
Proof.
  assert (@sane_template Int4.tp = true) as H1 by (vm_compute; done).
  assert (valid (Int4.built [1; 2]) = true) as H2 by (vm_compute; done).
  assert (room (size (Int4.built [1; 2]) + Z.of_nat (length [7; 8])))
    as H3 by (vm_compute; done).
  assert (0 ≤ 1 ≤ size (Int4.built [1; 2])) as H4
    by (vm_compute; split; discriminate).
  assert (size (Int4.built [1; 2]) + Z.of_nat (length [7; 8])
          ≤ capacity (Int4.built [1; 2])) as H5
    by (vm_compute; discriminate).
  split; [done|].
  exact (insert_range_within_capacity Int4.tp (Int4.built [1; 2]) 1 [7; 8]
           H1 H2 H3 H4 H5).
Defined.

(** Whenever the active block has a cell for each element of the vector and
    of the range, which includes every range [insert] that fits the
    capacity, the range [insert] returns the position and leaves the
    elements that single-element inserts of the range, one after the other,
    return and leave. *)
Theorem range_insert_matches_single_inserts (tp : Template) (v : VLVector)
    (pos : Z) (rng : list T) :
  sane_template = true → valid v = true →
  room (size v + Z.of_nat (length rng)) →
  0 ≤ pos ≤ size v →
  size v + Z.of_nat (length rng) ≤ active_cells v →
  ∃ l v1 v2,
    insert_range v pos rng = Ret pos v1 ∧
    insert_each rng pos v = Ret pos v2 ∧
    elements v1 = Some l ∧ elements v2 = Some l.
Proof.
  unfold size, active_cells. intros Hsane Hv Hroom Hpos Hcells.
  destruct (valid_holds v Hv) as [l Hl].
  destruct (valid_block v Hv) as (c & Hb & _). rewrite Hb in Hcells.
  destruct (insert_range_spec v pos rng l c) as (v1 & H1 & _ & Hl1);
    try done.
  destruct (insert_each_spec rng v pos l) as (v2 & H2 & _ & Hl2); try done.
  exists (take (Z.to_nat pos) l ++ rng ++ drop (Z.to_nat pos) l), v1, v2.
  split; [done|]. split; [done|]. split; by apply holds_elements.
Qed.

(** A vector of five elements with capacity 7 in a block of 28 cells: the
    range insert of three elements grows. *)
Lemma range_insert_matches_single_inserts_witness :
  (@sane_template Int4.tp = true ∧
   valid (Int4.built [1; 2; 3; 4; 5]) = true ∧
   room (size (Int4.built [1; 2; 3; 4; 5]) + Z.of_nat (length [6; 7; 8])) ∧
   0 ≤ 2 ≤ size (Int4.built [1; 2; 3; 4; 5]) ∧
   size (Int4.built [1; 2; 3; 4; 5]) + Z.of_nat (length [6; 7; 8])
     ≤ active_cells (Int4.built [1; 2; 3; 4; 5])) ∧
  ∃ l v1 v2,
    insert_range (Int4.built [1; 2; 3; 4; 5]) 2 [6; 7; 8] = Ret 2 v1 ∧
    insert_each [6; 7; 8] 2 (Int4.built [1; 2; 3; 4; 5]) = Ret 2 v2 ∧
    elements v1 = Some l ∧ elements v2 = Some l.
Proof.
  assert (@sane_template Int4.tp = true) as H1 by (vm_compute; done).
  assert (valid (Int4.built [1; 2; 3; 4; 5]) = true) as H2
    by (vm_compute; done).
  assert (room (size (Int4.built [1; 2; 3; 4; 5])
                + Z.of_nat (length [6; 7; 8]))) as H3
    by (vm_compute; done).
  assert (0 ≤ 2 ≤ size (Int4.built [1; 2; 3; 4; 5])) as H4
    by (vm_compute; split; discriminate).
  assert (size (Int4.built [1; 2; 3; 4; 5]) + Z.of_nat (length [6; 7; 8])
          ≤ active_cells (Int4.built [1; 2; 3; 4; 5])) as H5
    by (vm_compute; discriminate).
  split; [done|].
  exact (range_insert_matches_single_inserts Int4.tp
           (Int4.built [1; 2; 3; 4; 5]) 2 [6; 7; 8] H1 H2 H3 H4 H5).
Defined.



(** The copy constructor builds a consistent vector with the elements of
    its argument, in order, and with its capacity. *)
Theorem copy_ctor_copies (tp : Template) (toCopy : VLVector) :
  sane_template = true → valid toCopy = true →
  room (size toCopy) → capacity toCopy * sizeof_T < size_t_modulus →
  ∃ l v', elements toCopy = Some l ∧
          VLVector_copy toCopy = Ret tt v' ∧
          elements v' = Some l ∧ size v' = size toCopy ∧
          capacity v' = capacity toCopy ∧ valid v' = true.
Proof.
  unfold size, capacity. intros Hsane Hv Hroom Hno.
  destruct (valid_holds toCopy Hv) as [l Hl].
  destruct (VLVector_copy_spec toCopy l Hsane Hv Hl Hroom Hno)
    as (v' & H & Hv' & Hl').
  exists l, v'. split; [by apply holds_elements|]. split; [done|].
  split; [by apply holds_elements|].
  split; [by rewrite (holds_length _ _ Hl), (holds_length _ _ Hl')|].
  split; [|done].
  apply valid_spec in Hv as (_ & Hsz & Hcap & _).
  unfold VLVector_copy in H.
  apply assign_other_header in H as (rng & Hr & _ & Hc).
  rewrite (holds_elements _ _ Hl) in Hr. injection Hr as <-.
  simpl in Hc. unfold STARTING_SIZE in Hc.
  rewrite Z.add_0_l, <- (holds_length _ _ Hl) in Hc.
  rewrite to_size_t_small in Hc by lia.
  destruct (Z.gtb_spec (_size toCopy) (_capacity toCopy)); [lia | done].
Qed.

Lemma copy_ctor_copies_witness :
  (@sane_template Int4.tp = true ∧
   valid (Int4.built [1; 2; 3; 4; 5]) = true ∧
   room (size (Int4.built [1; 2; 3; 4; 5])) ∧
   capacity (Int4.built [1; 2; 3; 4; 5]) * sizeof_T < size_t_modulus) ∧
  ∃ l v', elements (Int4.built [1; 2; 3; 4; 5]) = Some l ∧
          VLVector_copy (Int4.built [1; 2; 3; 4; 5]) = Ret tt v' ∧
          elements v' = Some l ∧
          size v' = size (Int4.built [1; 2; 3; 4; 5]) ∧
          capacity v' = capacity (Int4.built [1; 2; 3; 4; 5]) ∧
          valid v' = true.
Proof.
  assert (@sane_template Int4.tp = true) as H1 by (vm_compute; done).
  assert (valid (Int4.built [1; 2; 3; 4; 5]) = true) as H2
    by (vm_compute; done).
  assert (room (size (Int4.built [1; 2; 3; 4; 5]))) as H3
    by (vm_compute; done).
  assert (capacity (Int4.built [1; 2; 3; 4; 5]) * sizeof_T
          < size_t_modulus) as H4 by (vm_compute; done).
  split; [done|].
  exact (copy_ctor_copies Int4.tp (Int4.built [1; 2; 3; 4; 5])
           H1 H2 H3 H4).
Defined.

(** Assignment to an empty static vector copies the elements of the source,
    in order. *)
Theorem assign_to_empty_copies (tp : Template) (v rhs : VLVector) :
  sane_template = true →
  valid v = true → _dynamic v = false → size v = 0 →
  valid rhs = true →
  room (size rhs) → capacity rhs * sizeof_T < size_t_modulus →
  ∃ l v', elements rhs = Some l ∧
          assign v (other_object rhs) = Ret tt v' ∧
          elements v' = Some l ∧ size v' = size rhs ∧ valid v' = true.
Proof.
  unfold size, capacity. intros Hsane Hv Hd Hs Hr Hroom Hno.
  destruct (valid_holds rhs Hr) as [l Hl].
  destruct (assign_to_empty_spec v rhs l Hsane Hv Hd Hs Hr Hl Hroom Hno)
    as (v' & H & Hv' & Hl').
  exists l, v'. split; [by apply holds_elements|]. split; [done|].
  split; [by apply holds_elements|]. split; [|done].
  by rewrite (holds_length _ _ Hl), (holds_length _ _ Hl').
Qed.

Lemma assign_to_empty_copies_witness :
  (@sane_template Int4.tp = true ∧
   valid (Int4.built []) = true ∧ _dynamic (Int4.built []) = false ∧
   size (Int4.built []) = 0 ∧
   valid (Int4.built [1; 2; 3]) = true ∧
   room (size (Int4.built [1; 2; 3])) ∧
   capacity (Int4.built [1; 2; 3]) * sizeof_T < size_t_modulus) ∧
  ∃ l v', elements (Int4.built [1; 2; 3]) = Some l ∧
          assign (Int4.built []) (other_object (Int4.built [1; 2; 3]))
            = Ret tt v' ∧
          elements v' = Some l ∧ size v' = size (Int4.built [1; 2; 3]) ∧
          valid v' = true.
Proof.
  assert (@sane_template Int4.tp = true) as H1 by (vm_compute; done).
  assert (valid (Int4.built []) = true) as H2 by (vm_compute; done).
  assert (_dynamic (Int4.built []) = false) as H3 by (vm_compute; done).
  assert (size (Int4.built []) = 0) as H4 by (vm_compute; done).
  assert (valid (Int4.built [1; 2; 3]) = true) as H5 by (vm_compute; done).
  assert (room (size (Int4.built [1; 2; 3]))) as H6 by (vm_compute; done).
  assert (capacity (Int4.built [1; 2; 3]) * sizeof_T < size_t_modulus)
    as H7 by (vm_compute; done).
  split; [done|].
  exact (assign_to_empty_copies Int4.tp (Int4.built [])
           (Int4.built [1; 2; 3]) H1 H2 H3 H4 H5 H6 H7).
Defined.

(** [operator==] on consistent vectors, for an element comparison that
    decides equality, is true exactly when the two vectors hold the same
    elements in the same order, whatever their capacities and modes;
    [operator!=] is its negation. Neither changes the vector. *)
Theorem equality_compares_elements (tp : Template) (cmp : Comparable tp)
    (v w : VLVector) :
  (∀ x y, T_eq x y = true ↔ x = y) →
  valid v = true → valid w = true →
  ∃ lv lw b, elements v = Some lv ∧ elements w = Some lw ∧
             operator_eq v w = Ret b v ∧
             (b = true ↔ lv = lw) ∧
             operator_ne v w = Ret (negb b) v.
Proof.
  intros Heq Hv Hw.
  destruct (valid_holds v Hv) as [lv Hlv].
  destruct (valid_holds w Hw) as [lw Hlw].
  destruct (operator_eq_spec v w lv lw Heq Hlv Hlw) as (b & Hb & Hiff).
  exists lv, lw, b. split; [by apply holds_elements|].
  split; [by apply holds_elements|]. split; [done|]. split; [done|].
  unfold operator_ne. by rewrite Hb.
Qed.

(** A static vector built by three pushes and a dynamic one that shrank to
    the same three elements. *)
Lemma equality_compares_elements_witness :
  ((∀ x y : Z, @T_eq Int4.tp Int4_comparable x y = true ↔ x = y) ∧
   valid (Int4.built [1; 2; 3]) = true ∧
   valid (Int4.state_of
            (erase_range (Int4.built [1; 2; 3; 4; 5; 6]) 3 6)) = true) ∧
  ∃ lv lw b,
    elements (Int4.built [1; 2; 3]) = Some lv ∧
    elements (Int4.state_of
                (erase_range (Int4.built [1; 2; 3; 4; 5; 6]) 3 6))
      = Some lw ∧
    operator_eq (Int4.built [1; 2; 3])
      (Int4.state_of (erase_range (Int4.built [1; 2; 3; 4; 5; 6]) 3 6))
      = Ret b (Int4.built [1; 2; 3]) ∧
    (b = true ↔ lv = lw) ∧
    operator_ne (Int4.built [1; 2; 3])
      (Int4.state_of (erase_range (Int4.built [1; 2; 3; 4; 5; 6]) 3 6))
      = Ret (negb b) (Int4.built [1; 2; 3]).
Proof.
  assert (∀ x y : Z, @T_eq Int4.tp Int4_comparable x y = true ↔ x = y)
    as H1 by (intros x y; apply Z.eqb_eq).
  assert (valid (Int4.built [1; 2; 3]) = true) as H2 by (vm_compute; done).
  assert (valid (Int4.state_of
                   (erase_range (Int4.built [1; 2; 3; 4; 5; 6]) 3 6))
          = true) as H3 by (vm_compute; done).
  split; [done|].
  exact (equality_compares_elements Int4.tp Int4_comparable
           (Int4.built [1; 2; 3])
           (Int4.state_of (erase_range (Int4.built [1; 2; 3; 4; 5; 6]) 3 6))
           H1 H2 H3).
Defined.

(** Assignment through [at(idx)] throws [out_of_range] and changes nothing
    when [idx >= size()]; otherwise it does what assignment through
    [operator[]] does: it replaces the element at [idx] and no other, keeps
    size and capacity, and [at(idx)] then returns the new element. *)
Theorem at_assign_replaces (tp : Template) (v : VLVector) (idx : Z)
    (x : T) :
  valid v = true → 0 ≤ idx →
  (size v ≤ idx → at_assign v idx x = Throw out_of_range v) ∧
  (idx < size v →
   ∃ l v', elements v = Some l ∧
           at_assign v idx x = Ret tt v' ∧
           subscript_assign v idx x = Ret tt v' ∧
           elements v' = Some (<[Z.to_nat idx := x]> l) ∧
           at_ v' idx = Ret x v' ∧
           size v' = size v ∧ capacity v' = capacity v ∧
           valid v' = true).
Proof.
  unfold size, capacity, at_assign, subscript_assign. intros Hv Hidx.
  destruct (valid_holds v Hv) as [l Hl].
  pose proof (holds_length _ _ Hl) as Hlen.
  split.
  - intros Hle. by destruct (Z.leb_spec (_size v) idx); [|lia].
  - intros Hlt. destruct (Z.leb_spec (_size v) idx) as [E|_]; [lia|].
    destruct (store_spec v idx x l Hv Hl) as (v' & H & Hv' & Hl' & Hh);
      [lia|].
    destruct Hh as (Hs & Hc & _).
    exists l, v'. split; [by apply holds_elements|].
    split; [done|]. split; [done|]. split; [by apply holds_elements|].
    split; [|by repeat split].
    destruct (at_spec v' idx _ Hv' Hl' Hidx) as [_ Hat].
    destruct Hat as (y & Hy & Hat); [lia|].
    rewrite list_lookup_insert_eq in Hy by lia. by injection Hy as <-.
Qed.

Lemma at_assign_replaces_witness :
  (valid (Int4.built [1; 2; 3]) = true ∧ 0 ≤ 1) ∧
  (size (Int4.built [1; 2; 3]) ≤ 1 →
   at_assign (Int4.built [1; 2; 3]) 1 9
     = Throw out_of_range (Int4.built [1; 2; 3])) ∧
  (1 < size (Int4.built [1; 2; 3]) →
   ∃ l v', elements (Int4.built [1; 2; 3]) = Some l ∧
           at_assign (Int4.built [1; 2; 3]) 1 9 = Ret tt v' ∧
           subscript_assign (Int4.built [1; 2; 3]) 1 9 = Ret tt v' ∧
           elements v' = Some (<[Z.to_nat 1 := 9]> l) ∧
           at_ v' 1 = Ret 9 v' ∧
           size v' = size (Int4.built [1; 2; 3]) ∧
           capacity v' = capacity (Int4.built [1; 2; 3]) ∧
           valid v' = true).
Proof.
  assert (valid (Int4.built [1; 2; 3]) = true) as H1 by (vm_compute; done).
  assert (0 ≤ 1) as H2 by lia.
  split; [done|].
  exact (at_assign_replaces Int4.tp (Int4.built [1; 2; 3]) 1 9 H1 H2).
Defined.

(** [push_back], [pop_back], the two [insert] and the two [erase] keep the
    mode in step with the size: from a consistent vector that is dynamic
    exactly when it holds more than [StaticCapacity] elements and has the
    static capacity when static, each of them leads to such a vector. *)
Theorem resizing_keeps_mode (tp : Template) (v v' : VLVector) :
  valid v = true → tight v → resizing_step v v' → tight v'.
Proof.
  intros Hv Ht Hstep.
  apply valid_spec in Hv as (_ & Hsz & Hcap & _).
  destruct Hstep as
    [ v x a v' Hlim H | v iter x r v' Hlim H | v iter rng r v' Hlim H
    | v a v' Hpos H | v iter r v' H | v first last r v' Hfl H ].
  - apply push_back_header in H as (Hs & Hc).
    rewrite to_size_t_small in Hs by lia.
    destruct (Z.eqb_spec (_size v) (_capacity v)) as [E|E].
    + apply (grown_tight v v' (_size v + 1) true);
        first [done | lia | intros; lia | tauto].
    + apply (grown_tight v v' (_size v + 1) false);
        first [done | lia | intros; lia | tauto].
  - apply insert_header in H as (Hs & Hc).
    rewrite to_size_t_small in Hs by lia.
    destruct (Z.eqb_spec (_size v) (_capacity v)) as [E|E].
    + apply (grown_tight v v' (_size v + 1) true);
        first [done | lia | intros; lia | tauto].
    + apply (grown_tight v v' (_size v + 1) false);
        first [done | lia | intros; lia | tauto].
  - apply insert_range_header in H as (_ & _ & Hs & Hc).
    rewrite to_size_t_small in Hs, Hc by lia.
    destruct (Z.gtb_spec (_size v + Z.of_nat (length rng)) (_capacity v))
      as [E|E].
    + apply (grown_tight v v' (_size v + Z.of_nat (length rng)) true);
        first [done | lia | intros; lia | tauto].
    + apply (grown_tight v v' (_size v + Z.of_nat (length rng)) false);
        first [done | lia | intros; lia | tauto].
  - apply pop_back_header in H as (Hs & Hc).
    rewrite to_size_t_small in Hs, Hc by lia.
    apply (shrunk_tight v v' (_size v - 1)); first [done | lia].
  - apply erase_header in H as (_ & Hi & Hs & Hc).
    rewrite to_size_t_small in Hs, Hc by lia.
    apply (shrunk_tight v v' (_size v - 1)); first [done | lia].
  - apply erase_range_header in H as (_ & Hl & Hs & Hc).
    rewrite to_size_t_small in Hs, Hc by lia.
    apply (shrunk_tight v v' (_size v - (last - first)));
      first [done | lia].
Qed.

(** The fifth push into a full static [VLVector<int, 4>]. *)
Lemma resizing_keeps_mode_witness :
  (valid (Int4.built [1; 2; 3; 4]) = true ∧
   tight (Int4.built [1; 2; 3; 4]) ∧
   resizing_step (Int4.built [1; 2; 3; 4]) (Int4.built [1; 2; 3; 4; 5])) ∧
  tight (Int4.built [1; 2; 3; 4; 5]).
Proof.
  assert (valid (Int4.built [1; 2; 3; 4]) = true) as H1
    by (vm_compute; done).
  assert (tight (Int4.built [1; 2; 3; 4])) as H2.
  { split; [intros _; reflexivity|].
    split; [discriminate | vm_compute; discriminate]. }
  assert (resizing_step (Int4.built [1; 2; 3; 4])
            (Int4.built [1; 2; 3; 4; 5])) as H3.
  { apply (step_push_back (Int4.built [1; 2; 3; 4]) 5 tt);
      by vm_compute. }
  split; [done|].
  exact (resizing_keeps_mode Int4.tp _ _ H1 H2 H3).
Defined.

(** On a consistent vector iteration from [begin()] to [end()] ends,
    [size()] is the number of elements it yields and [empty()] says
    whether there is none. *)
Theorem size_counts_elements (tp : Template) (v : VLVector) :
  valid v = true →
  ∃ l, elements v = Some l ∧
       size v = Z.of_nat (length l) ∧
       (empty v = true ↔ l = []).
Proof.
  intros Hv. destruct (valid_holds v Hv) as [l Hl].
  pose proof (holds_length _ _ Hl) as Hs.
  exists l. split; [by apply holds_elements|].
  unfold size, empty, STARTING_SIZE. split; [done|].
  rewrite Z.eqb_eq, Hs. split.
  - intros H0. destruct l; [done | simpl in H0; lia].
  - by intros ->.
Qed.

Lemma size_counts_elements_witness :
  valid (Int4.built [1; 2; 3; 4; 5]) = true ∧
  ∃ l, elements (Int4.built [1; 2; 3; 4; 5]) = Some l ∧
       size (Int4.built [1; 2; 3; 4; 5]) = Z.of_nat (length l) ∧
       (empty (Int4.built [1; 2; 3; 4; 5]) = true ↔ l = []).
Proof.
  assert (valid (Int4.built [1; 2; 3; 4; 5]) = true) as H1
    by (vm_compute; done).
  split; [done|].
  exact (size_counts_elements Int4.tp (Int4.built [1; 2; 3; 4; 5]) H1).
Defined.

(** Inserting at the end of a full [VLVector<int, 4>]. *)
Lemma insert_at_end_witness :
  0 ≤ _size (Int4.built [1; 2; 3; 4]) < size_t_modulus ∧
  insert (Int4.built [1; 2; 3; 4]) (end_ (Int4.built [1; 2; 3; 4])) 5
    = do (_, v') <- push_back (Int4.built [1; 2; 3; 4]) 5;
      Ret (_size (Int4.built [1; 2; 3; 4])) v'.
Proof.
  assert (0 ≤ _size (Int4.built [1; 2; 3; 4]) < size_t_modulus) as H1
    by (vm_compute; split; [discriminate | done]).
  split; [done|].
  exact (@insert_at_end Int4.tp (Int4.built [1; 2; 3; 4]) 5 H1).
Defined.

(** Erasing the fifth element of a dynamic [VLVector<int, 4>]. *)
Lemma erase_last_witness :
  0 < _size (Int4.built [1; 2; 3; 4; 5]) ∧
  erase (Int4.built [1; 2; 3; 4; 5])
    (_size (Int4.built [1; 2; 3; 4; 5]) - 1)
    = do (_, v') <- pop_back (Int4.built [1; 2; 3; 4; 5]);
      Ret (_size (Int4.built [1; 2; 3; 4; 5]) - 1) v'.
Proof.
  assert (0 < _size (Int4.built [1; 2; 3; 4; 5])) as H1
    by (vm_compute; done).
  split; [done|].
  exact (@erase_last Int4.tp (Int4.built [1; 2; 3; 4; 5]) H1).
Defined.
